(** * codeflare.pipelines.Datamodel: nodes, edges and the pipeline graph

    A shallow embedding of [src/codeflare/pipelines/Datamodel.py].

    Conventions of the embedding.
    - A Python [dict] keyed by [Node] is an insertion-ordered association
      list whose lookups compare keys with [Node.__eq__] (class, id and
      name); [Node.__hash__] hashes the id only, so equal nodes always
      hash alike and the hash never changes what a lookup finds.
    - Python [int] levels only ever hold 0, [max] and [+ 1] of earlier
      levels, so they are embedded as [nat].
    - [uuid.uuid4()] is a draw from an entropy source that is threaded
      through node construction as explicit state.
    - Methods that may raise return an [outcome]; [compute_node_level],
      whose recursion ends only on acyclic graphs, takes a recursion
      budget and answers [OutOfFuel] when it is spent.  The interpreter's
      own recursion limit is not part of the model.
    - The pipeline's dictionaries, lists and caches are mutated only by
      its own methods: what a query hands out is read, never written, by
      the caller.  Under that discipline the in-place appends of
      [add_edge] and the memo shared by the recursive calls are plain
      state passing. *)

From Stdlib Require Import List Arith Lia Bool NArith String.
From Stdlib Require Import ZArith.
Import ListNotations.

(** ** Outcomes of a call *)

Inductive PyExn : Type :=
| KeyError
| IndexError
| TypeError
| NotImplementedError.

Inductive outcome (A : Type) : Type :=
| Ok (a : A)
| Raise (e : PyExn)
| OutOfFuel.

Arguments Ok {A} a.
Arguments Raise {A} e.
Arguments OutOfFuel {A}.

Definition bind {A B : Type} (m : outcome A) (k : A -> outcome B) : outcome B :=
  match m with
  | Ok a => k a
  | Raise e => Raise e
  | OutOfFuel => OutOfFuel
  end.

Notation "x <- m ;; k" := (bind m (fun x => k))
  (at level 61, m at next level, right associativity).
Notation "' p <- m ;; k" := (bind m (fun x => match x with p => k end))
  (at level 61, p pattern, m at next level, right associativity).

(** ** Opaque transform capabilities

    An estimator or merge function is an arbitrary Python object; the
    embedding keeps the names of the methods it offers and its tunable
    parameters. *)

Record PyObject : Type := mkPyObject {
  methods : list string;
  params : list (string * nat)
}.

Definition has_method (o : PyObject) (m : string) : bool :=
  existsb (String.eqb m) (methods o).

(** The single-input contract: [fit] and [transform]. *)
Definition fit_transform_contract (o : PyObject) : bool :=
  has_method o "fit" && has_method o "transform".

(** The merge contract: a [transform] over a list of inputs. *)
Definition and_transform_contract (o : PyObject) : bool :=
  has_method o "transform".

(** ** Enumerations *)

Inductive NodeInputType : Type := OR | AND.
Inductive NodeFiringType : Type := ANY | ALL.
Inductive NodeStateType : Type :=
| STATELESS | IMMUTABLE | MUTABLE_SEQUENTIAL | MUTABLE_AGGREGATE.

(** ** The entropy source behind [uuid.uuid4] *)

Definition UUID : Type := N.

Record World : Type := mkWorld {
  uuid_source : nat -> UUID;
  uuid_drawn : nat
}.

Definition uuid4 (w : World) : UUID * World :=
  (uuid_source w (uuid_drawn w),
   {| uuid_source := uuid_source w; uuid_drawn := S (uuid_drawn w) |}).

(** ** Nodes *)

Inductive NodeClass : Type := EstimatorNodeClass | AndNodeClass.

Record Node : Type := mkNode {
  node_class : NodeClass;
  node_name : string;
  node_input_type : NodeInputType;
  node_firing_type : NodeFiringType;
  node_state_type : NodeStateType;
  node_id : UUID;
  (* [__estimator__] of an EstimatorNode, [__andfunc__] of an AndNode *)
  node_capability : PyObject
}.

(** [Node.__init__], followed by the store of the subclass attribute. *)
Definition Node_init (cls : NodeClass) (name : string)
    (it : NodeInputType) (ft : NodeFiringType) (st : NodeStateType)
    (cap : PyObject) (w : World) : Node * World :=
  let (u, w') := uuid4 w in
  ({| node_class := cls; node_name := name; node_input_type := it;
      node_firing_type := ft; node_state_type := st; node_id := u;
      node_capability := cap |}, w').

(** [EstimatorNode.__init__] *)
Definition EstimatorNode (node_name : string) (estimator : PyObject)
    (w : World) : outcome (Node * World) :=
  Ok (Node_init EstimatorNodeClass node_name OR ANY IMMUTABLE estimator w).

(** [AndNode.__init__] *)
Definition AndNode (node_name : string) (and_func : PyObject)
    (w : World) : outcome (Node * World) :=
  Ok (Node_init AndNodeClass node_name AND ANY STATELESS and_func w).

Definition get_id (n : Node) : UUID := node_id n.
Definition get_estimator (n : Node) : PyObject := node_capability n.
Definition get_and_func (n : Node) : PyObject := node_capability n.

Definition NodeClass_eqb (a b : NodeClass) : bool :=
  match a, b with
  | EstimatorNodeClass, EstimatorNodeClass => true
  | AndNodeClass, AndNodeClass => true
  | _, _ => false
  end.

(** [Node.__eq__] *)
Definition node_eq (self other : Node) : bool :=
  NodeClass_eqb (node_class self) (node_class other)
  && N.eqb (node_id self) (node_id other)
  && String.eqb (node_name self) (node_name other).

Section Clone.
(** [sklearn.base.clone] lives outside the repository: it either
    raises or returns a copy of the estimator. *)
Variable base_clone : PyObject -> outcome PyObject.

(** [EstimatorNode.clone] and [AndNode.clone], dispatched on the class. *)
Definition clone (self : Node) (w : World) : outcome (Node * World) :=
  match node_class self with
  | EstimatorNodeClass =>
      cloned_estimator <- base_clone (node_capability self) ;;
      EstimatorNode (node_name self) cloned_estimator w
  | AndNodeClass =>
      AndNode (node_name self) (node_capability self) w
  end.
End Clone.

(** ** Edges *)

Record Edge : Type := mkEdge {
  from_node : option Node;
  to_node : option Node
}.

(** ** Dictionaries keyed by nodes *)

Definition dict (V : Type) : Type := list (Node * V).

Fixpoint dict_get {V : Type} (k : Node) (d : dict V) : option V :=
  match d with
  | [] => None
  | (k', v) :: d' => if node_eq k' k then Some v else dict_get k d'
  end.

Definition dict_mem {V : Type} (k : Node) (d : dict V) : bool :=
  match dict_get k d with Some _ => true | None => false end.

(** [d[k] = v]: an existing entry keeps its key object and its place. *)
Fixpoint dict_set {V : Type} (k : Node) (v : V) (d : dict V) : dict V :=
  match d with
  | [] => [(k, v)]
  | (k', v') :: d' =>
      if node_eq k' k then (k', v) :: d' else (k', v') :: dict_set k v d'
  end.

Definition keys {V : Type} (d : dict V) : list Node := map fst d.

(** Truth value of a container held in an attribute that may be [None]. *)
Definition truthy {A : Type} (o : option (list A)) : bool :=
  match o with
  | Some (_ :: _) => true
  | _ => false
  end.

(** ** The pipeline *)

Record Pipeline : Type := mkPipeline {
  pre_graph : dict (list Node);
  post_graph : dict (list Node);
  node_levels : option (dict nat);
  level_nodes : option (list (list Node))
}.

(** [Pipeline.__init__] *)
Definition Pipeline_init : Pipeline :=
  {| pre_graph := []; post_graph := [];
     node_levels := None; level_nodes := None |}.

Definition add_node (node : Node) (self : Pipeline) : Pipeline :=
  if negb (dict_mem node (pre_graph self)) then
    {| pre_graph := dict_set node [] (pre_graph self);
       post_graph := dict_set node [] (post_graph self);
       node_levels := None; level_nodes := None |}
  else
    {| pre_graph := pre_graph self; post_graph := post_graph self;
       node_levels := None; level_nodes := None |}.

(** [d[k].append(x)]: the lookup raises on a missing key. *)
Definition dict_append (k x : Node) (d : dict (list Node))
    : outcome (dict (list Node)) :=
  match dict_get k d with
  | Some l => Ok (dict_set k (l ++ [x]) d)
  | None => Raise KeyError
  end.

Definition add_edge (from_node to_node : Node) (self : Pipeline)
    : outcome Pipeline :=
  let self1 := add_node from_node self in
  let self2 := add_node to_node self1 in
  pre <- dict_append to_node from_node (pre_graph self2) ;;
  post <- dict_append from_node to_node (post_graph self2) ;;
  Ok {| pre_graph := pre; post_graph := post;
        node_levels := node_levels self2; level_nodes := level_nodes self2 |}.

Definition get_preimage (self : Pipeline) (node : Node) : outcome (list Node) :=
  match dict_get node (pre_graph self) with
  | Some l => Ok l
  | None => Raise KeyError
  end.

Definition get_postimage (self : Pipeline) (node : Node) : outcome (list Node) :=
  match dict_get node (post_graph self) with
  | Some l => Ok l
  | None => Raise KeyError
  end.

(** The [for p_node in node_preimage] loop of [compute_node_level];
    [level_of] is the recursive call. *)
Fixpoint preimage_loop (level_of : Node -> dict nat -> outcome (nat * dict nat))
    (node_preimage : list Node) (max_level : nat) (result : dict nat)
    : outcome (nat * dict nat) :=
  match node_preimage with
  | [] => Ok (max_level, result)
  | p_node :: rest =>
      '(level, result') <- level_of p_node result ;;
      preimage_loop level_of rest (Nat.max level max_level) result'
  end.

(** [compute_node_level]: the memo [result] is threaded through the
    recursive calls; [fuel] bounds the depth of the recursion. *)
Fixpoint compute_node_level (fuel : nat) (self : Pipeline) (node : Node)
    (result : dict nat) : outcome (nat * dict nat) :=
  match fuel with
  | 0 => OutOfFuel
  | S fuel' =>
      match dict_get node result with
      | Some l => Ok (l, result)
      | None =>
          node_preimage <- get_preimage self node ;;
          match node_preimage with
          | [] => Ok (0, dict_set node 0 result)
          | _ :: _ =>
              '(max_level, result') <-
                preimage_loop (compute_node_level fuel' self)
                  node_preimage 0 result ;;
              Ok (max_level + 1, dict_set node (max_level + 1) result')
          end
      end
  end.

(** The loop of [compute_node_levels] over the keys of [pre_graph]. *)
Fixpoint levels_loop (fuel : nat) (self : Pipeline) (nodes : list Node)
    (result : dict nat) : outcome (dict nat) :=
  match nodes with
  | [] => Ok result
  | node :: nodes' =>
      '(level, result') <- compute_node_level fuel self node result ;;
      levels_loop fuel self nodes' (dict_set node level result')
  end.

Definition set_node_levels (self : Pipeline) (d : dict nat) : Pipeline :=
  {| pre_graph := pre_graph self; post_graph := post_graph self;
     node_levels := Some d; level_nodes := level_nodes self |}.

Definition compute_node_levels (fuel : nat) (self : Pipeline)
    : outcome (dict nat * Pipeline) :=
  if truthy (node_levels self) then
    match node_levels self with
    | Some d => Ok (d, self)
    | None => Ok ([], self)
    end
  else
    result <- levels_loop fuel self (keys (pre_graph self)) [] ;;
    Ok (result, set_node_levels self result).

Definition compute_max_level (fuel : nat) (self : Pipeline)
    : outcome (nat * Pipeline) :=
  '(levels, self') <- compute_node_levels fuel self ;;
  Ok (fold_left (fun max_level '(_, node_level) => Nat.max node_level max_level)
        levels 0, self').

(** [result[i].append(node)] on a list of buckets. *)
Fixpoint bucket_append (i : nat) (node : Node) (result : list (list Node))
    : outcome (list (list Node)) :=
  match result, i with
  | [], _ => Raise IndexError
  | b :: bs, 0 => Ok ((b ++ [node]) :: bs)
  | b :: bs, S i' => bs' <- bucket_append i' node bs ;; Ok (b :: bs')
  end.

Fixpoint fill_buckets (items : dict nat) (result : list (list Node))
    : outcome (list (list Node)) :=
  match items with
  | [] => Ok result
  | (node, node_level) :: items' =>
      result' <- bucket_append node_level node result ;;
      fill_buckets items' result'
  end.

Definition set_level_nodes (self : Pipeline) (b : list (list Node)) : Pipeline :=
  {| pre_graph := pre_graph self; post_graph := post_graph self;
     node_levels := node_levels self; level_nodes := Some b |}.

Definition get_nodes_by_level (fuel : nat) (self : Pipeline)
    : outcome (list (list Node) * Pipeline) :=
  if truthy (level_nodes self) then
    match level_nodes self with
    | Some b => Ok (b, self)
    | None => Ok ([], self)
    end
  else
    '(levels, self1) <- compute_node_levels fuel self ;;
    '(max_level, self2) <- compute_max_level fuel self1 ;;
    let result_size := max_level + 1 in
    result <- fill_buckets levels (repeat [] result_size) ;;
    Ok (result, set_level_nodes self2 result).

Definition get_post_nodes (self : Pipeline) (node : Node) : outcome (list Node) :=
  get_postimage self node.

Definition get_pre_nodes (self : Pipeline) (node : Node) : outcome (list Node) :=
  get_preimage self node.

Definition get_pre_edges (self : Pipeline) (node : Node) : outcome (list Edge) :=
  match dict_get node (pre_graph self) with
  | None => Raise KeyError
  | Some pre_nodes =>
      let pre_edges :=
        match pre_nodes with
        | [] => [mkEdge None (Some node)]
        | _ :: _ => []
        end in
      Ok (pre_edges ++ map (fun pre_node => mkEdge (Some pre_node) (Some node)) pre_nodes)
  end.

Definition get_post_edges (self : Pipeline) (node : Node) : outcome (list Edge) :=
  match dict_get node (post_graph self) with
  | None => Raise KeyError
  | Some post_nodes =>
      let post_edges :=
        match post_nodes with
        | [] => [mkEdge (Some node) None]
        | _ :: _ => []
        end in
      Ok (post_edges ++ map (fun post_node => mkEdge (Some node) (Some post_node)) post_nodes)
  end.

Definition is_terminal (self : Pipeline) (node : Node) : outcome bool :=
  node_post_edges <- get_post_edges self node ;;
  Ok (Nat.eqb (List.length node_post_edges) 0).

(** ** Pipelines built through the API *)

Inductive reachable : Pipeline -> Prop :=
| reachable_init : reachable Pipeline_init
| reachable_add_node n p :
    reachable p -> reachable (add_node n p)
| reachable_add_edge a b p p' :
    reachable p -> add_edge a b p = Ok p' -> reachable p'
| reachable_compute_node_levels fuel p d p' :
    reachable p -> compute_node_levels fuel p = Ok (d, p') -> reachable p'
| reachable_compute_max_level fuel p m p' :
    reachable p -> compute_max_level fuel p = Ok (m, p') -> reachable p'
| reachable_get_nodes_by_level fuel p b p' :
    reachable p -> get_nodes_by_level fuel p = Ok (b, p') -> reachable p'.

(** ** Graph vocabulary *)

(** [q] is (equal to) a direct predecessor of [n]. *)
Definition is_pred (g : dict (list Node)) (q n : Node) : Prop :=
  exists ps q', dict_get n g = Some ps /\ In q' ps /\ node_eq q' q = true.

(** One or more predecessor steps lead from [n] back to [q]. *)
Inductive reaches (g : dict (list Node)) : Node -> Node -> Prop :=
| reaches_edge q n : is_pred g q n -> reaches g q n
| reaches_step q m n : reaches g q m -> is_pred g m n -> reaches g q n.

(** No node lies on a path to a node equal to itself. *)
Definition acyclic (self : Pipeline) : Prop :=
  forall n m, reaches (pre_graph self) n m -> node_eq n m = false.

(** What [Node.__eq__] compares. *)
Definition node_key (n : Node) : NodeClass * N * string :=
  (node_class n, node_id n, node_name n).

(** Every listed predecessor is itself a key. *)
Definition closed (g : dict (list Node)) : Prop :=
  forall n ps q, dict_get n g = Some ps -> In q ps -> dict_mem q g = true.

Fixpoint distinct_keys {V : Type} (d : dict V) : Prop :=
  match d with
  | [] => True
  | (k, _) :: d' => dict_get k d' = None /\ distinct_keys d'
  end.

(** The level a node gets from the levels [lps] of its predecessors [ps]. *)
Definition level_rec (ps : list Node) (lps : list nat) : nat :=
  match ps with
  | [] => 0
  | _ :: _ => S (list_max lps)
  end.

Definition has_levels (memo : dict nat) (ps : list Node) (lps : list nat) : Prop :=
  Forall2 (fun q lq => dict_get q memo = Some lq) ps lps.

(** Every memoised level obeys the recurrence inside the memo. *)
Definition memo_ok (g : dict (list Node)) (memo : dict nat) : Prop :=
  forall n l, dict_get n memo = Some l ->
    exists ps lps,
      dict_get n g = Some ps /\ has_levels memo ps lps /\ l = level_rec ps lps.

Definition memo_ext (m m' : dict nat) : Prop :=
  forall n l, dict_get n m = Some l -> dict_get n m' = Some l.

(** Entries added while computing the level of [n] are [n] or lead to it. *)
Definition memo_new (g : dict (list Node)) (n : Node) (m m' : dict nat) : Prop :=
  forall k, dict_mem k m' = true ->
    dict_mem k m = true \/ node_eq k n = true \/ reaches g k n.

(** What one call of [compute_node_level] does to a sound memo. *)
Definition level_call_ok (g : dict (list Node))
    (level_of : Node -> dict nat -> outcome (nat * dict nat)) : Prop :=
  forall q memo l memo',
    memo_ok g memo -> level_of q memo = Ok (l, memo') ->
    memo_ok g memo' /\ memo_ext memo memo' /\
    dict_get q memo' = Some l /\ memo_new g q memo memo'.

(** What any returning call of [compute_node_level] does to the memo:
    entries are only ever added, and keys stay distinct. *)
Definition memo_grows (m m' : dict nat) : Prop :=
  (forall k, dict_mem k m = true -> dict_mem k m' = true) /\
  (distinct_keys m -> distinct_keys m').

Definition level_call_grows
    (level_of : Node -> dict nat -> outcome (nat * dict nat)) : Prop :=
  forall q memo l memo',
    level_of q memo = Ok (l, memo') ->
    dict_mem q memo' = true /\ memo_grows memo memo'.

Definition max_level_of (levels : dict nat) : nat :=
  fold_left (fun max_level '(_, node_level) => Nat.max node_level max_level)
    levels 0.

(** Occurrences of (a node equal to) [n] in a bucket. *)
Definition count_node (n : Node) (bucket : list Node) : nat :=
  List.length (filter (node_eq n) bucket).

(** What the caches of a pipeline hold, when they hold something. *)
Definition levels_cache_ok (p : Pipeline) : Prop :=
  forall d, node_levels p = Some d ->
    exists fuel, levels_loop fuel p (keys (pre_graph p)) [] = Ok d.

Definition buckets_cache_ok (p : Pipeline) : Prop :=
  forall b, level_nodes p = Some b ->
    exists fuel d,
      levels_loop fuel p (keys (pre_graph p)) [] = Ok d /\
      fill_buckets d (repeat [] (max_level_of d + 1)) = Ok b.

Record consistent (p : Pipeline) : Prop := {
  same_keys : keys (pre_graph p) = keys (post_graph p);
  pre_closed : closed (pre_graph p);
  levels_cached : levels_cache_ok p;
  buckets_cached : buckets_cache_ok p
}.

(** ** Wiring several edges, as a caller does *)

Fixpoint add_edges (edges : list (Node * Node)) (self : Pipeline)
    : outcome Pipeline :=
  match edges with
  | [] => Ok self
  | (a, b) :: rest => self' <- add_edge a b self ;; add_edges rest self'
  end.

(** A rank that grows along every edge rules cycles out. *)
Definition ranked (rank : Node -> nat) (g : dict (list Node)) : bool :=
  forallb (fun '(n, ps) => forallb (fun q => rank q <? rank n) ps) g.

Definition rank_by_id (n : Node) : nat := N.to_nat (node_id n).

(** ** Sample objects, nodes and pipelines *)

Definition counting_world : World :=
  {| uuid_source := N.of_nat; uuid_drawn := 0 |}.

Definition scaler : PyObject :=
  {| methods := ["fit"; "transform"; "get_params"]%string;
     params := [("with_mean"%string, 1)] |}.

Definition joiner : PyObject :=
  {| methods := ["transform"; "get_params"]%string; params := [] |}.

(** An object with neither [fit] nor [transform]. *)
Definition bare_object : PyObject := {| methods := []; params := [] |}.

(** A [base.clone] that copies the parameters of whatever it is given. *)
Definition copying_clone (o : PyObject) : outcome PyObject :=
  Ok {| methods := methods o; params := params o |}.

Definition estimator_node (name : string) (id : UUID) : Node :=
  {| node_class := EstimatorNodeClass; node_name := name;
     node_input_type := OR; node_firing_type := ANY;
     node_state_type := IMMUTABLE; node_id := id;
     node_capability := scaler |}.

Definition and_node (name : string) (id : UUID) : Node :=
  {| node_class := AndNodeClass; node_name := name;
     node_input_type := AND; node_firing_type := ANY;
     node_state_type := STATELESS; node_id := id;
     node_capability := joiner |}.

Definition node_a : Node := estimator_node "a" 1%N.
Definition node_b : Node := estimator_node "b" 2%N.
Definition node_c : Node := estimator_node "c" 3%N.
Definition node_d : Node := and_node "d" 4%N.

Definition diamond_edges : list (Node * Node) :=
  [(node_a, node_b); (node_a, node_c); (node_b, node_d); (node_c, node_d)].

(** a -> b, a -> c, b -> d, c -> d *)
Definition diamond : Pipeline :=
  Eval vm_compute in
    match add_edges diamond_edges Pipeline_init with
    | Ok p => p
    | _ => Pipeline_init
    end.

Definition join_edges : list (Node * Node) :=
  [(node_a, node_c); (node_b, node_c)].

Definition chain_edges : list (Node * Node) :=
  [(node_a, node_b); (node_b, node_c); (node_c, node_d)].

(** What a query returned, without the pipeline it left behind. *)
Definition returned {A : Type} (o : outcome (A * Pipeline)) : outcome A :=
  '(a, _) <- o ;; Ok a.

(** One node, with both caches filled by [get_nodes_by_level]. *)
Definition single_leveled : Pipeline :=
  Eval vm_compute in
    match get_nodes_by_level 2 (add_node node_a Pipeline_init) with
    | Ok (_, p) => p
    | _ => Pipeline_init
    end.

(** ** Hashes, edge equality and printing of pipelines *)

Section Hashing.
(** [UUID.__hash__] and the hash of [None] are the interpreter's. *)
Variable uuid_hash : UUID -> Z.
Variable none_hash : Z.

(** [Node.__hash__] *)
Definition Node_hash (self : Node) : Z := uuid_hash (node_id self).

Definition endpoint_hash (o : option Node) : Z :=
  match o with
  | Some n => Node_hash n
  | None => none_hash
  end.

(** [Edge.__hash__] *)
Definition Edge_hash (self : Edge) : Z :=
  Z.lxor (endpoint_hash (from_node self)) (endpoint_hash (to_node self)).
End Hashing.

(** [==] between two endpoints, each a node or [None]. *)
Definition endpoint_eq (a b : option Node) : bool :=
  match a, b with
  | Some x, Some y => node_eq x y
  | None, None => true
  | _, _ => false
  end.

(** [Edge.__eq__] between two edges. *)
Definition Edge_eq (self other : Edge) : bool :=
  endpoint_eq (from_node self) (from_node other)
  && endpoint_eq (to_node self) (to_node other).

(** [Node.__str__] *)
Definition Node_str (self : Node) : string := node_name self.

(** [Pipeline.get_str] *)
Definition get_str (nodes : list Node) : string :=
  fold_left (fun res node => ((res ++ Node_str node) ++ " ")%string)
    nodes ""%string.

Definition crlf : string :=
  String (Ascii.ascii_of_nat 13) (String (Ascii.ascii_of_nat 10) EmptyString).

(** The loop of [Pipeline.__str__] over the keys of [pre_graph]. *)
Fixpoint str_loop (self : Pipeline) (nodes : list Node) (res : string)
    : outcome string :=
  match nodes with
  | [] => Ok res
  | node :: rest =>
      match dict_get node (pre_graph self) with
      | Some ps =>
          str_loop self rest
            ((((res ++ Node_str node) ++ "=") ++ get_str ps) ++ crlf)%string
      | None => Raise KeyError
      end
  end.

(** [Pipeline.__str__] *)
Definition Pipeline_str (self : Pipeline) : outcome string :=
  str_loop self (keys (pre_graph self)) ""%string.

(** ** Vocabulary for the further properties *)

(** The adjacency list of a node, empty for a node that is no key. *)
Definition adjacent (g : dict (list Node)) (n : Node) : list Node :=
  match dict_get n g with
  | Some l => l
  | None => []
  end.

(** [n] has a node that lies on a cycle among its ancestors. *)
Definition below_cycle (g : dict (list Node)) (n : Node) : Prop :=
  exists m, reaches g m m /\ reaches g m n.

(** No memoised node is below a cycle. *)
Definition memo_clean (g : dict (list Node)) (memo : dict nat) : Prop :=
  forall k, dict_mem k memo = true -> ~ below_cycle g k.

(** A returning call never memoises a node below a cycle. *)
Definition level_call_clean (g : dict (list Node))
    (level_of : Node -> dict nat -> outcome (nat * dict nat)) : Prop :=
  forall q memo l memo',
    memo_clean g memo -> level_of q memo = Ok (l, memo') ->
    memo_clean g memo' /\ ~ below_cycle g q.

(** A call on a key never raises. *)
Definition level_call_safe (g : dict (list Node))
    (level_of : Node -> dict nat -> outcome (nat * dict nat)) : Prop :=
  forall q memo e, dict_mem q g = true -> level_of q memo <> Raise e.

(** A node wired to itself. *)
Definition self_loop : Pipeline :=
  Eval vm_compute in
    match add_edge node_a node_a Pipeline_init with
    | Ok p => p
    | _ => Pipeline_init
    end.

(** ** Basic facts: outcomes *)

Lemma bind_Ok {A B : Type} (m : outcome A) (k : A -> outcome B) (b : B) :
  bind m k = Ok b -> exists a, m = Ok a /\ k a = Ok b.
Proof.
  destruct m as [a| |]; simpl; intros H; try discriminate.
  exists a; split; [reflexivity | exact H].
Qed.

Ltac inv_bind H :=
  let a := fresh "r" in
  let Ha := fresh "Hr" in
  apply bind_Ok in H; destruct H as (a & Ha & H).

(** ** Basic facts: node equality *)

Lemma NodeClass_eqb_eq a b : NodeClass_eqb a b = true <-> a = b.
Proof. destruct a, b; simpl; split; intros; congruence. Qed.

Lemma node_eq_key a b : node_eq a b = true <-> node_key a = node_key b.
Proof.
  unfold node_eq, node_key.
  rewrite !andb_true_iff, NodeClass_eqb_eq, N.eqb_eq, String.eqb_eq.
  split.
  - intros [[-> ->] ->]; reflexivity.
  - intros H; inversion H; auto.
Qed.

Lemma node_eq_refl a : node_eq a a = true.
Proof. apply node_eq_key; reflexivity. Qed.

Lemma node_eq_sym a b : node_eq a b = node_eq b a.
Proof.
  destruct (node_eq a b) eqn:E, (node_eq b a) eqn:E'; try reflexivity.
  - apply node_eq_key in E. symmetry in E. apply node_eq_key in E. congruence.
  - apply node_eq_key in E'. symmetry in E'. apply node_eq_key in E'. congruence.
Qed.

Lemma node_eq_trans a b c :
  node_eq a b = true -> node_eq b c = true -> node_eq a c = true.
Proof. rewrite !node_eq_key. congruence. Qed.

(** Equal nodes are interchangeable as the left argument of [node_eq]. *)
Lemma node_eq_left a b c : node_eq a b = true -> node_eq a c = node_eq b c.
Proof.
  intros H.
  destruct (node_eq a c) eqn:E, (node_eq b c) eqn:E'; try reflexivity.
  - rewrite node_eq_sym in H. rewrite (node_eq_trans _ _ _ H E) in E'. discriminate.
  - rewrite (node_eq_trans _ _ _ H E') in E. discriminate.
Qed.

Lemma node_eq_right a b c : node_eq a b = true -> node_eq c a = node_eq c b.
Proof.
  intros H. rewrite (node_eq_sym c a), (node_eq_sym c b). now apply node_eq_left.
Qed.

(** ** Basic facts: dictionaries *)

Section DictFacts.
Context {V : Type}.
Implicit Types (d : dict V) (k : Node) (v : V).

Lemma dict_get_eq k k' d :
  node_eq k k' = true -> dict_get k d = dict_get k' d.
Proof.
  intros H. induction d as [|[k0 v0] d IH]; simpl; [reflexivity|].
  rewrite (node_eq_right _ _ k0 H), IH. reflexivity.
Qed.

Lemma dict_mem_eq k k' d :
  node_eq k k' = true -> dict_mem k d = dict_mem k' d.
Proof. intros H. unfold dict_mem. now rewrite (dict_get_eq _ _ d H). Qed.

Lemma dict_get_set k k' v d :
  dict_get k' (dict_set k v d) =
  if node_eq k k' then Some v else dict_get k' d.
Proof.
  induction d as [|[k0 v0] d IH]; simpl.
  - reflexivity.
  - destruct (node_eq k0 k) eqn:E; simpl.
    + rewrite (node_eq_left _ _ k' E).
      destruct (node_eq k k'); reflexivity.
    + rewrite IH. destruct (node_eq k0 k') eqn:E'; [|reflexivity].
      destruct (node_eq k k') eqn:E''; [|reflexivity].
      rewrite node_eq_sym in E''.
      rewrite (node_eq_trans _ _ _ E' E'') in E. discriminate.
Qed.

Lemma dict_get_set_same k v d : dict_get k (dict_set k v d) = Some v.
Proof. now rewrite dict_get_set, node_eq_refl. Qed.

Lemma dict_set_absent k v d :
  dict_get k d = None -> dict_set k v d = d ++ [(k, v)].
Proof.
  induction d as [|[k0 v0] d IH]; simpl; [reflexivity|].
  destruct (node_eq k0 k); [discriminate|].
  intros H. now rewrite IH.
Qed.

Lemma dict_set_present k v d :
  dict_get k d = Some v -> dict_set k v d = d.
Proof.
  induction d as [|[k0 v0] d IH]; simpl; [discriminate|].
  destruct (node_eq k0 k).
  - intros [= ->]. reflexivity.
  - intros H. now rewrite IH.
Qed.

Lemma keys_dict_set_present k v d :
  dict_mem k d = true -> keys (dict_set k v d) = keys d.
Proof.
  unfold dict_mem, keys.
  induction d as [|[k0 v0] d IH]; simpl; [discriminate|].
  destruct (node_eq k0 k); simpl; [reflexivity|].
  intros H. now rewrite IH.
Qed.

Lemma keys_dict_set_absent k v d :
  dict_mem k d = false -> keys (dict_set k v d) = keys d ++ [k].
Proof.
  unfold dict_mem. intros H.
  rewrite dict_set_absent by (destruct (dict_get k d); congruence).
  unfold keys. now rewrite map_app.
Qed.

Lemma dict_get_In k v d :
  dict_get k d = Some v -> exists k0, In (k0, v) d /\ node_eq k0 k = true.
Proof.
  induction d as [|[k0 v0] d IH]; simpl; [discriminate|].
  destruct (node_eq k0 k) eqn:E.
  - intros [= ->]. exists k0. auto.
  - intros H. destruct (IH H) as (k1 & Hin & Hk). exists k1. auto.
Qed.

Lemma dict_mem_In k d :
  dict_mem k d = true -> exists k0, In k0 (keys d) /\ node_eq k0 k = true.
Proof.
  unfold dict_mem. destruct (dict_get k d) as [v|] eqn:E; [|discriminate].
  intros _. destruct (dict_get_In _ _ _ E) as (k0 & Hin & Hk).
  exists k0. split; [|exact Hk].
  unfold keys. change k0 with (fst (k0, v)). now apply in_map.
Qed.

Lemma In_keys_dict_mem k d : In k (keys d) -> dict_mem k d = true.
Proof.
  unfold dict_mem, keys.
  induction d as [|[k0 v0] d IH]; simpl; [tauto|].
  intros [->|H].
  - now rewrite node_eq_refl.
  - destruct (node_eq k0 k); [reflexivity|]. now apply IH.
Qed.

Lemma dict_mem_keys k d d' :
  keys d = keys d' -> dict_mem k d = dict_mem k d'.
Proof.
  unfold dict_mem, keys. revert d'.
  induction d as [|[k0 v0] d IH]; intros [|[k1 v1] d']; simpl;
    try discriminate; [reflexivity|].
  intros [= -> H]. destruct (node_eq k1 k); [reflexivity|]. now apply IH.
Qed.

Lemma distinct_keys_set k v d :
  distinct_keys d -> distinct_keys (dict_set k v d).
Proof.
  induction d as [|[k0 v0] d IH]; simpl.
  - auto.
  - intros [Hk Hd]. destruct (node_eq k0 k) eqn:E; simpl.
    + auto.
    + split; [|auto]. rewrite dict_get_set.
      rewrite node_eq_sym, E. exact Hk.
Qed.
End DictFacts.

(** ** Paths in the predecessor graph *)

Section GraphFacts.
Variable g : dict (list Node).

Lemma is_pred_eq_l q q' n :
  node_eq q q' = true -> is_pred g q n -> is_pred g q' n.
Proof.
  intros H (ps & q0 & Hps & Hin & Hq).
  exists ps, q0. repeat split; try assumption.
  eapply node_eq_trans; eassumption.
Qed.

Lemma is_pred_eq_r q n n' :
  node_eq n n' = true -> is_pred g q n -> is_pred g q n'.
Proof.
  intros H (ps & q0 & Hps & Hin & Hq).
  exists ps, q0. repeat split; try assumption.
  rewrite <- (dict_get_eq _ _ g H). exact Hps.
Qed.

Lemma is_pred_In q n ps :
  dict_get n g = Some ps -> In q ps -> is_pred g q n.
Proof. intros Hps Hin. exists ps, q. auto using node_eq_refl. Qed.

Lemma reaches_eq_l q q' n :
  node_eq q q' = true -> reaches g q n -> reaches g q' n.
Proof.
  intros H R. induction R as [q n Hp | q m n R IH Hp].
  - apply reaches_edge. eapply is_pred_eq_l; eassumption.
  - eapply reaches_step; [apply IH; exact H | exact Hp].
Qed.

Lemma reaches_trans a b c : reaches g a b -> reaches g b c -> reaches g a c.
Proof.
  intros Rab Rbc. induction Rbc as [b c Hp | b m c R IH Hp].
  - eapply reaches_step; eassumption.
  - eapply reaches_step; [apply IH; exact Rab | exact Hp].
Qed.
End GraphFacts.

(** ** The memo of [compute_node_level] *)

Lemma has_levels_ext m m' ps lps :
  memo_ext m m' -> has_levels m ps lps -> has_levels m' ps lps.
Proof.
  intros Hext H. induction H; constructor; auto.
Qed.

Lemma memo_ext_refl m : memo_ext m m.
Proof. intros n l H; exact H. Qed.

Lemma memo_ext_trans m1 m2 m3 :
  memo_ext m1 m2 -> memo_ext m2 m3 -> memo_ext m1 m3.
Proof. intros H12 H23 n l H. auto. Qed.

Lemma memo_ext_set n v m :
  dict_get n m = None -> memo_ext m (dict_set n v m).
Proof.
  intros Hn k l Hk. rewrite dict_get_set.
  destruct (node_eq n k) eqn:E; [|exact Hk].
  rewrite (dict_get_eq _ _ m E) in Hn. congruence.
Qed.

Lemma memo_ext_mem m m' k :
  memo_ext m m' -> dict_mem k m = true -> dict_mem k m' = true.
Proof.
  unfold dict_mem. intros Hext.
  destruct (dict_get k m) as [l|] eqn:E; [|discriminate].
  now rewrite (Hext _ _ E).
Qed.

Lemma memo_ok_set g n v m ps lps :
  memo_ok g m -> dict_get n m = None ->
  dict_get n g = Some ps -> has_levels m ps lps -> v = level_rec ps lps ->
  memo_ok g (dict_set n v m).
Proof.
  intros Hok Hn Hps Hlv Hv k l Hk.
  pose proof (memo_ext_set n v m Hn) as Hext.
  rewrite dict_get_set in Hk. destruct (node_eq n k) eqn:E.
  - injection Hk as <-. exists ps, lps. repeat split.
    + rewrite <- (dict_get_eq _ _ g E). exact Hps.
    + eapply has_levels_ext; eassumption.
    + exact Hv.
  - destruct (Hok _ _ Hk) as (ps' & lps' & Hps' & Hlv' & Hl).
    exists ps', lps'. repeat split; try assumption.
    eapply has_levels_ext; eassumption.
Qed.

Lemma dict_mem_set {V : Type} k k' (v : V) d :
  dict_mem k' (dict_set k v d) = node_eq k k' || dict_mem k' d.
Proof.
  unfold dict_mem. rewrite dict_get_set. destruct (node_eq k k'); reflexivity.
Qed.

Lemma compute_node_level_S fuel self node result :
  compute_node_level (S fuel) self node result =
  match dict_get node result with
  | Some l => Ok (l, result)
  | None =>
      node_preimage <- get_preimage self node ;;
      match node_preimage with
      | [] => Ok (0, dict_set node 0 result)
      | _ :: _ =>
          '(max_level, result') <-
            preimage_loop (compute_node_level fuel self) node_preimage 0 result ;;
          Ok (max_level + 1, dict_set node (max_level + 1) result')
      end
  end.
Proof. reflexivity. Qed.

Section LevelCorrect.
Variable self : Pipeline.
Hypothesis Hacyclic : acyclic self.

Lemma preimage_loop_ok level_of :
  level_call_ok (pre_graph self) level_of ->
  forall ps mx memo r memo',
    memo_ok (pre_graph self) memo ->
    preimage_loop level_of ps mx memo = Ok (r, memo') ->
    memo_ok (pre_graph self) memo' /\ memo_ext memo memo' /\
    (exists lps, has_levels memo' ps lps /\ r = Nat.max (list_max lps) mx) /\
    (forall k, dict_mem k memo' = true ->
       dict_mem k memo = true \/
       exists p, In p ps /\ (node_eq k p = true \/ reaches (pre_graph self) k p)).
Proof.
  intros Hcall ps. induction ps as [|p rest IH]; intros mx memo r memo' Hok Hrun.
  - simpl in Hrun. injection Hrun as <- <-.
    repeat split; auto using memo_ext_refl.
    exists []. split; [constructor | reflexivity].
  - simpl in Hrun. inv_bind Hrun. destruct r0 as [l m1].
    destruct (Hcall _ _ _ _ Hok Hr) as (Hok1 & Hext1 & Hget1 & Hnew1).
    destruct (IH _ _ _ _ Hok1 Hrun) as (Hok' & Hext' & (lps & Hlv & Hr') & Hnew').
    repeat split.
    + exact Hok'.
    + eapply memo_ext_trans; eassumption.
    + exists (l :: lps). split.
      * constructor; [apply Hext'; exact Hget1 | exact Hlv].
      * rewrite Hr'. simpl. lia.
    + intros k Hk. destruct (Hnew' k Hk) as [Hm1 | (p' & Hin & Hp')].
      * destruct (Hnew1 k Hm1) as [Hm | Hp]; [left; exact Hm|].
        right. exists p. split; [left; reflexivity | exact Hp].
      * right. exists p'. split; [right; exact Hin | exact Hp'].
Qed.

Lemma compute_node_level_ok fuel :
  level_call_ok (pre_graph self) (compute_node_level fuel self).
Proof.
  induction fuel as [|fuel IH]; intros n memo l memo' Hok Hrun.
  - discriminate.
  - rewrite compute_node_level_S in Hrun.
    destruct (dict_get n memo) as [l0|] eqn:Hmemo.
    + injection Hrun as <- <-.
      repeat split; auto using memo_ext_refl.
      intros k Hk. left; exact Hk.
    + inv_bind Hrun. unfold get_preimage in Hr.
      destruct (dict_get n (pre_graph self)) as [ps|] eqn:Hps; [|discriminate].
      injection Hr as <-.
      destruct ps as [|p rest].
      * injection Hrun as <- <-.
        repeat split.
        -- eapply memo_ok_set; try eassumption; [constructor | reflexivity].
        -- now apply memo_ext_set.
        -- apply dict_get_set_same.
        -- intros k. rewrite dict_mem_set, orb_true_iff.
           intros [E|Hk]; [right; left; now rewrite node_eq_sym | left; exact Hk].
      * inv_bind Hrun. destruct r as [mx m1]. injection Hrun as <- <-.
        destruct (preimage_loop_ok _ IH _ _ _ _ _ Hok Hr)
          as (Hok1 & Hext1 & (lps & Hlv & Hmx) & Hnew1).
        assert (Hfresh : dict_get n m1 = None).
        { destruct (dict_get n m1) as [l1|] eqn:E1; [exfalso | reflexivity].
          assert (Hmem : dict_mem n m1 = true) by (unfold dict_mem; now rewrite E1).
          destruct (Hnew1 n Hmem) as [Hm | (q & Hin & Hq)].
          - unfold dict_mem in Hm. rewrite Hmemo in Hm. discriminate.
          - pose proof (is_pred_In (pre_graph self) q n _ Hps Hin) as Hpred.
            destruct Hq as [Hq | Hq].
            + pose proof (Hacyclic _ _ (reaches_edge _ _ _ Hpred)) as Hne.
              rewrite node_eq_sym in Hne. congruence.
            + pose proof (Hacyclic _ _ (reaches_step _ _ _ _ Hq Hpred)) as Hne.
              rewrite node_eq_refl in Hne. discriminate. }
        repeat split.
        -- eapply memo_ok_set; try eassumption.
           simpl. rewrite Hmx. lia.
        -- eapply memo_ext_trans; [exact Hext1 | now apply memo_ext_set].
        -- apply dict_get_set_same.
        -- intros k. rewrite dict_mem_set, orb_true_iff.
           intros [E|Hk]; [right; left; now rewrite node_eq_sym|].
           destruct (Hnew1 k Hk) as [Hm | (q & Hin & Hq)]; [left; exact Hm|].
           right; right.
           pose proof (is_pred_In (pre_graph self) q n _ Hps Hin) as Hpred.
           destruct Hq as [Hq | Hq].
           ++ apply reaches_edge. eapply is_pred_eq_l; [|exact Hpred].
              now rewrite node_eq_sym.
           ++ eapply reaches_step; eassumption.
Qed.
End LevelCorrect.

(** ** Fuel: more never hurts, and an acyclic graph needs little *)

Lemma preimage_loop_ext level_of level_of' :
  (forall q m, level_of q m = level_of' q m) ->
  forall ps mx m,
    preimage_loop level_of ps mx m = preimage_loop level_of' ps mx m.
Proof.
  intros H ps. induction ps as [|p rest IH]; intros mx m; simpl.
  - reflexivity.
  - rewrite H. destruct (level_of' p m) as [[l m1]| |]; simpl; auto.
Qed.

Lemma preimage_loop_mono level_of level_of' :
  (forall q m r, level_of q m = Ok r -> level_of' q m = Ok r) ->
  forall ps mx m r,
    preimage_loop level_of ps mx m = Ok r ->
    preimage_loop level_of' ps mx m = Ok r.
Proof.
  intros H ps. induction ps as [|p rest IH]; intros mx m r Hrun; simpl in *.
  - exact Hrun.
  - inv_bind Hrun. destruct r0 as [l m1].
    rewrite (H _ _ _ Hr). simpl. now apply IH.
Qed.

Lemma compute_node_level_graph self self' :
  pre_graph self = pre_graph self' ->
  forall fuel n m,
    compute_node_level fuel self n m = compute_node_level fuel self' n m.
Proof.
  intros Hg fuel. induction fuel as [|fuel IH]; intros n m.
  - reflexivity.
  - rewrite !compute_node_level_S. unfold get_preimage. rewrite Hg.
    destruct (dict_get n m); [reflexivity|].
    destruct (dict_get n (pre_graph self')) as [[|p rest]|]; cbn [bind];
      try reflexivity.
    now rewrite (preimage_loop_ext _ _ IH).
Qed.

Lemma compute_node_level_mono self fuel :
  forall fuel' n m r,
    fuel <= fuel' ->
    compute_node_level fuel self n m = Ok r ->
    compute_node_level fuel' self n m = Ok r.
Proof.
  induction fuel as [|fuel IH]; intros fuel' n m r Hle Hrun.
  - discriminate.
  - destruct fuel' as [|fuel']; [lia|].
    rewrite compute_node_level_S in *.
    destruct (dict_get n m); [exact Hrun|].
    destruct (get_preimage self n) as [[|p rest]| |]; cbn [bind] in *;
      try exact Hrun.
    inv_bind Hrun.
    erewrite preimage_loop_mono; [exact Hrun | | exact Hr].
    intros q m0 r1. apply IH. lia.
Qed.

Lemma levels_loop_graph self self' :
  pre_graph self = pre_graph self' ->
  forall fuel nodes m,
    levels_loop fuel self nodes m = levels_loop fuel self' nodes m.
Proof.
  intros Hg fuel nodes. induction nodes as [|n rest IH]; intros m; simpl.
  - reflexivity.
  - rewrite (compute_node_level_graph _ _ Hg).
    destruct (compute_node_level fuel self' n m) as [[l m1]| |]; simpl; auto.
Qed.

Lemma levels_loop_mono self fuel fuel' :
  fuel <= fuel' ->
  forall nodes m d,
    levels_loop fuel self nodes m = Ok d ->
    levels_loop fuel' self nodes m = Ok d.
Proof.
  intros Hle nodes. induction nodes as [|n rest IH]; intros m d Hrun; simpl in *.
  - exact Hrun.
  - inv_bind Hrun. destruct r as [l m1].
    rewrite (compute_node_level_mono _ _ _ _ _ _ Hle Hr). simpl. now apply IH.
Qed.

(** Two budgets that both suffice give the same levels. *)
Lemma levels_loop_deterministic self fuel fuel' nodes m d d' :
  levels_loop fuel self nodes m = Ok d ->
  levels_loop fuel' self nodes m = Ok d' ->
  d = d'.
Proof.
  intros H H'.
  apply (levels_loop_mono self fuel (Nat.max fuel fuel')) in H; [|lia].
  apply (levels_loop_mono self fuel' (Nat.max fuel fuel')) in H'; [|lia].
  congruence.
Qed.

Lemma preimage_loop_total level_of ps :
  (forall p m, In p ps -> exists r, level_of p m = Ok r) ->
  forall mx m, exists r, preimage_loop level_of ps mx m = Ok r.
Proof.
  induction ps as [|p rest IH]; intros H mx m; simpl.
  - eauto.
  - destruct (H p m (or_introl eq_refl)) as ([l m1] & ->). simpl.
    apply IH. intros q m0 Hq. apply H. now right.
Qed.

Section LevelTotal.
Variable self : Pipeline.
Hypothesis Hacyclic : acyclic self.
Hypothesis Hclosed : closed (pre_graph self).

(** Pairwise different keys are no more numerous than the graph's entries. *)
Lemma stack_bound stack :
  NoDup (map node_key stack) ->
  (forall s, In s stack -> dict_mem s (pre_graph self) = true) ->
  List.length stack <= List.length (pre_graph self).
Proof.
  intros Hnd Hkeys.
  rewrite <- (length_map node_key stack).
  rewrite <- (length_map fst (pre_graph self)).
  rewrite <- (length_map node_key (map fst (pre_graph self))).
  apply NoDup_incl_length; [exact Hnd|].
  intros x Hx. apply in_map_iff in Hx. destruct Hx as (s & <- & Hs).
  destruct (dict_mem_In _ _ (Hkeys s Hs)) as (k0 & Hin & Hk).
  apply node_eq_key in Hk. rewrite <- Hk. now apply in_map.
Qed.

Lemma compute_node_level_total fuel :
  forall stack n memo,
    dict_mem n (pre_graph self) = true ->
    NoDup (map node_key stack) ->
    (forall s, In s stack -> dict_mem s (pre_graph self) = true) ->
    (forall s, In s stack -> reaches (pre_graph self) n s) ->
    S (List.length (pre_graph self)) <= fuel + List.length stack ->
    exists r, compute_node_level fuel self n memo = Ok r.
Proof.
  induction fuel as [|fuel IH]; intros stack n memo Hn Hnd Hkeys Hreach Hfuel.
  - pose proof (stack_bound stack Hnd Hkeys). simpl in Hfuel. lia.
  - rewrite compute_node_level_S.
    destruct (dict_get n memo) as [l|]; [eauto|].
    unfold get_preimage. unfold dict_mem in Hn.
    destruct (dict_get n (pre_graph self)) as [ps|] eqn:Hps; [|discriminate].
    cbn [bind]. destruct ps as [|p rest]; [eauto|].
    destruct (preimage_loop_total (compute_node_level fuel self) (p :: rest))
      with (mx := 0) (m := memo) as ([mx m1] & ->); [|cbn [bind]; eauto].
    intros q m Hq.
    pose proof (is_pred_In _ q n _ Hps Hq) as Hpred.
    apply (IH (n :: stack)).
    + eapply Hclosed; eassumption.
    + simpl. constructor; [|exact Hnd].
      intros Hin. apply in_map_iff in Hin. destruct Hin as (s & Hk & Hs).
      symmetry in Hk. apply node_eq_key in Hk.
      pose proof (Hacyclic _ _ (Hreach s Hs)). congruence.
    + intros s [<-|Hs]; [|auto].
      unfold dict_mem. now rewrite Hps.
    + intros s [<-|Hs].
      * now apply reaches_edge.
      * eapply reaches_trans; [apply reaches_edge; exact Hpred | auto].
    + simpl. lia.
Qed.

Lemma levels_loop_total fuel nodes :
  S (List.length (pre_graph self)) <= fuel ->
  (forall n, In n nodes -> dict_mem n (pre_graph self) = true) ->
  forall memo, exists d, levels_loop fuel self nodes memo = Ok d.
Proof.
  intros Hfuel. induction nodes as [|n rest IH]; intros Hnodes memo; simpl.
  - eauto.
  - destruct (compute_node_level_total fuel [] n memo) as ([l m1] & ->).
    + apply Hnodes. now left.
    + constructor.
    + intros s [].
    + intros s [].
    + simpl. lia.
    + simpl. apply IH. intros q Hq. apply Hnodes. now right.
Qed.
End LevelTotal.

(** ** Growth of the memo, with or without cycles *)

Lemma memo_grows_refl m : memo_grows m m.
Proof. split; auto. Qed.

Lemma memo_grows_trans m1 m2 m3 :
  memo_grows m1 m2 -> memo_grows m2 m3 -> memo_grows m1 m3.
Proof. intros [A B] [A' B']. split; auto. Qed.

Lemma memo_grows_set n v m : memo_grows m (dict_set n v m).
Proof.
  split.
  - intros k Hk. rewrite dict_mem_set, Hk. apply orb_true_r.
  - apply distinct_keys_set.
Qed.

Lemma preimage_loop_grows level_of :
  level_call_grows level_of ->
  forall ps mx memo r memo',
    preimage_loop level_of ps mx memo = Ok (r, memo') ->
    memo_grows memo memo'.
Proof.
  intros Hcall ps. induction ps as [|p rest IH]; intros mx memo r memo' Hrun;
    simpl in Hrun.
  - injection Hrun as <- <-. apply memo_grows_refl.
  - inv_bind Hrun. destruct r0 as [l m1].
    destruct (Hcall _ _ _ _ Hr) as [_ Hg].
    eapply memo_grows_trans; [exact Hg | eapply IH; exact Hrun].
Qed.

Lemma compute_node_level_grows fuel self :
  level_call_grows (compute_node_level fuel self).
Proof.
  induction fuel as [|fuel IH]; intros n memo l memo' Hrun.
  - discriminate.
  - rewrite compute_node_level_S in Hrun.
    destruct (dict_get n memo) as [l0|] eqn:Hmemo.
    + injection Hrun as <- <-. split; [|apply memo_grows_refl].
      unfold dict_mem. now rewrite Hmemo.
    + inv_bind Hrun. destruct r as [|p rest].
      * injection Hrun as <- <-. split; [|apply memo_grows_set].
        now rewrite dict_mem_set, node_eq_refl.
      * inv_bind Hrun. destruct r as [mx m1]. injection Hrun as <- <-.
        split; [now rewrite dict_mem_set, node_eq_refl|].
        eapply memo_grows_trans; [|apply memo_grows_set].
        eapply preimage_loop_grows; [exact IH | exact Hr0].
Qed.

Lemma levels_loop_grows fuel self nodes :
  forall memo d,
    levels_loop fuel self nodes memo = Ok d ->
    (forall n, In n nodes -> dict_mem n d = true) /\ memo_grows memo d.
Proof.
  induction nodes as [|n rest IH]; intros memo d Hrun; simpl in Hrun.
  - injection Hrun as <-. split; [intros n [] | apply memo_grows_refl].
  - inv_bind Hrun. destruct r as [l m1].
    destruct (compute_node_level_grows _ _ _ _ _ _ Hr) as [Hn1 Hg1].
    destruct (IH _ _ Hrun) as [Hin Hg2].
    pose proof (memo_grows_trans _ _ _ (memo_grows_set n l m1) Hg2) as Hg3.
    split.
    + intros q [<-|Hq]; [|auto].
      destruct Hg3 as [Hmem _]. apply Hmem. exact Hn1.
    + eapply memo_grows_trans; eassumption.
Qed.

Lemma levels_loop_empty fuel self nodes :
  levels_loop fuel self nodes [] = Ok [] -> nodes = [].
Proof.
  intros Hrun. destruct nodes as [|n rest]; [reflexivity|].
  destruct (levels_loop_grows _ _ _ _ _ Hrun) as [Hin _].
  specialize (Hin n (or_introl eq_refl)). discriminate.
Qed.

(** ** The levels of an acyclic graph *)

Lemma levels_loop_ok self fuel nodes :
  acyclic self ->
  forall memo d,
    memo_ok (pre_graph self) memo ->
    levels_loop fuel self nodes memo = Ok d ->
    memo_ok (pre_graph self) d /\ memo_ext memo d.
Proof.
  intros Hacyclic. induction nodes as [|n rest IH]; intros memo d Hok Hrun;
    simpl in Hrun.
  - injection Hrun as <-. split; [exact Hok | apply memo_ext_refl].
  - inv_bind Hrun. destruct r as [l m1].
    destruct (compute_node_level_ok self Hacyclic fuel _ _ _ _ Hok Hr)
      as (Hok1 & Hext1 & Hget1 & _).
    rewrite (dict_set_present _ _ _ Hget1) in Hrun.
    destruct (IH _ _ Hok1 Hrun) as [Hok' Hext'].
    split; [exact Hok' | eapply memo_ext_trans; eassumption].
Qed.

Lemma memo_ok_empty g : memo_ok g [].
Proof. intros n l H. discriminate. Qed.

Lemma memo_ok_keys g d n :
  memo_ok g d -> dict_mem n d = true -> dict_mem n g = true.
Proof.
  unfold dict_mem. intros Hok.
  destruct (dict_get n d) as [l|] eqn:E; [|discriminate].
  destruct (Hok _ _ E) as (ps & _ & -> & _). reflexivity.
Qed.

(** The levels that [compute_node_levels] would compute afresh. *)
Lemma fresh_levels self :
  acyclic self -> closed (pre_graph self) ->
  exists d,
    (forall fuel, S (List.length (pre_graph self)) <= fuel ->
       levels_loop fuel self (keys (pre_graph self)) [] = Ok d) /\
    memo_ok (pre_graph self) d /\
    distinct_keys d /\
    (forall n, dict_mem n d = dict_mem n (pre_graph self)).
Proof.
  intros Hacyclic Hclosed.
  assert (Hkeys : forall n, In n (keys (pre_graph self)) ->
                            dict_mem n (pre_graph self) = true)
    by (intros n; apply In_keys_dict_mem).
  destruct (levels_loop_total self Hacyclic Hclosed
              (S (List.length (pre_graph self))) (keys (pre_graph self))
              (le_n _) Hkeys []) as (d & Hd).
  exists d.
  destruct (levels_loop_ok self _ _ Hacyclic _ _ (memo_ok_empty _) Hd) as [Hok _].
  destruct (levels_loop_grows _ _ _ _ _ Hd) as [Hin [_ Hdist]].
  repeat split.
  - intros fuel Hfuel. eapply levels_loop_mono; eassumption.
  - exact Hok.
  - apply Hdist. exact I.
  - intros n. destruct (dict_mem n (pre_graph self)) eqn:E.
    + destruct (dict_mem_In _ _ E) as (k0 & Hk0 & Hk).
      rewrite <- (dict_mem_eq _ _ d Hk). now apply Hin.
    + destruct (dict_mem n d) eqn:E'; [|reflexivity].
      rewrite (memo_ok_keys _ _ _ Hok E') in E. discriminate.
Qed.

(** ** The cached entry points *)

Lemma set_node_levels_same p d :
  node_levels p = Some d -> set_node_levels p d = p.
Proof. destruct p; simpl; intros ->; reflexivity. Qed.

Lemma truthy_false_Some {A : Type} (l : list A) :
  truthy (Some l) = false -> l = [].
Proof. destruct l; [reflexivity | discriminate]. Qed.

Lemma compute_node_levels_inv fuel p d p1 :
  compute_node_levels fuel p = Ok (d, p1) ->
  (truthy (node_levels p) = true /\ node_levels p = Some d /\ p1 = p) \/
  (truthy (node_levels p) = false /\
   levels_loop fuel p (keys (pre_graph p)) [] = Ok d /\
   p1 = set_node_levels p d).
Proof.
  unfold compute_node_levels.
  destruct (truthy (node_levels p)) eqn:T.
  - destruct (node_levels p) as [d0|]; [|discriminate].
    intros [= <- <-]. left. auto.
  - intros H. inv_bind H. injection H as <- <-. right. auto.
Qed.

Lemma compute_node_levels_frame fuel p d p1 :
  compute_node_levels fuel p = Ok (d, p1) ->
  pre_graph p1 = pre_graph p /\ post_graph p1 = post_graph p /\
  level_nodes p1 = level_nodes p /\ node_levels p1 = Some d.
Proof.
  intros H. destruct (compute_node_levels_inv _ _ _ _ H)
    as [(_ & Hd & ->) | (_ & _ & ->)]; simpl; auto.
Qed.

(** Once computed, the levels are what every later call returns. *)
Lemma compute_node_levels_again fuel fuel' p d p1 :
  compute_node_levels fuel p = Ok (d, p1) ->
  compute_node_levels fuel' p1 = Ok (d, p1).
Proof.
  intros H.
  destruct (compute_node_levels_frame _ _ _ _ H) as (Hpre & _ & _ & Hlv).
  unfold compute_node_levels. rewrite Hlv.
  destruct (truthy (Some d)) eqn:T; [reflexivity|].
  apply truthy_false_Some in T. subst d.
  assert (Hk : keys (pre_graph p) = []).
  { destruct (compute_node_levels_inv _ _ _ _ H)
      as [(T & Hd & _) | (_ & Hrun & _)].
    - rewrite Hd in T. discriminate.
    - eapply levels_loop_empty; exact Hrun. }
  rewrite Hpre, Hk. simpl. now rewrite set_node_levels_same.
Qed.

Lemma compute_max_level_inv fuel p m p1 :
  compute_max_level fuel p = Ok (m, p1) ->
  exists d, compute_node_levels fuel p = Ok (d, p1) /\ m = max_level_of d.
Proof.
  unfold compute_max_level. intros H. inv_bind H. destruct r as [d p'].
  injection H as <- <-. exists d. auto.
Qed.

Lemma get_nodes_by_level_inv fuel p b p2 :
  get_nodes_by_level fuel p = Ok (b, p2) ->
  (truthy (level_nodes p) = true /\ level_nodes p = Some b /\ p2 = p) \/
  (truthy (level_nodes p) = false /\
   exists d p1,
     compute_node_levels fuel p = Ok (d, p1) /\
     fill_buckets d (repeat [] (max_level_of d + 1)) = Ok b /\
     p2 = set_level_nodes p1 b).
Proof.
  unfold get_nodes_by_level.
  destruct (truthy (level_nodes p)) eqn:T.
  - destruct (level_nodes p) as [b0|]; [|discriminate].
    intros [= <- <-]. left. auto.
  - intros H. right. split; [reflexivity|].
    inv_bind H. destruct r as [d p1].
    inv_bind H. destruct r as [m p1'].
    inv_bind H. injection H as <- <-.
    destruct (compute_max_level_inv _ _ _ _ Hr0) as (d' & Hd' & ->).
    rewrite (compute_node_levels_again _ fuel _ _ _ Hr) in Hd'.
    injection Hd' as <- <-.
    exists d, p1. auto.
Qed.

(** ** Every pipeline built through the API is consistent *)

Lemma consistent_init : consistent Pipeline_init.
Proof.
  split; simpl.
  - reflexivity.
  - intros n ps q H. discriminate.
  - intros d H. discriminate.
  - intros b H. discriminate.
Qed.

Lemma add_node_mem n k p :
  dict_mem k (pre_graph (add_node n p)) = node_eq n k || dict_mem k (pre_graph p).
Proof.
  unfold add_node. destruct (dict_mem n (pre_graph p)) eqn:E; simpl.
  - destruct (node_eq n k) eqn:Ek; [|reflexivity].
    now rewrite <- (dict_mem_eq _ _ (pre_graph p) Ek), E.
  - apply dict_mem_set.
Qed.

Lemma consistent_add_node n p : consistent p -> consistent (add_node n p).
Proof.
  intros [Hk Hc _ _].
  unfold add_node. destruct (dict_mem n (pre_graph p)) eqn:E; simpl.
  - split; simpl; auto; intros x H; discriminate.
  - split; simpl; try (intros x H; discriminate).
    + rewrite keys_dict_set_absent by exact E.
      rewrite keys_dict_set_absent
        by (rewrite <- (dict_mem_keys n _ _ Hk); exact E).
      now rewrite Hk.
    + intros k ps q Hget Hin. rewrite dict_mem_set.
      rewrite dict_get_set in Hget. destruct (node_eq n k).
      * injection Hget as <-. destruct Hin.
      * rewrite (Hc _ _ _ Hget Hin). apply orb_true_r.
Qed.

Lemma add_node_caches n p :
  node_levels (add_node n p) = None /\ level_nodes (add_node n p) = None.
Proof. unfold add_node. destruct (negb _); auto. Qed.

Lemma add_edge_inv a b p p' :
  add_edge a b p = Ok p' ->
  exists pre_b post_a,
    dict_get b (pre_graph (add_node b (add_node a p))) = Some pre_b /\
    dict_get a (post_graph (add_node b (add_node a p))) = Some post_a /\
    p' = {| pre_graph := dict_set b (pre_b ++ [a])
                           (pre_graph (add_node b (add_node a p)));
            post_graph := dict_set a (post_a ++ [b])
                            (post_graph (add_node b (add_node a p)));
            node_levels := None; level_nodes := None |}.
Proof.
  unfold add_edge, dict_append. intros H.
  destruct (dict_get b (pre_graph (add_node b (add_node a p)))) as [pre_b|];
    [|discriminate].
  destruct (dict_get a (post_graph (add_node b (add_node a p)))) as [post_a|];
    [|discriminate].
  simpl in H. injection H as <-.
  exists pre_b, post_a. repeat split.
  destruct (add_node_caches b (add_node a p)) as [-> ->]. reflexivity.
Qed.

Lemma dict_get_mem {V : Type} k (d : dict V) v :
  dict_get k d = Some v -> dict_mem k d = true.
Proof. unfold dict_mem. now intros ->. Qed.

Lemma consistent_add_edge a b p p' :
  consistent p -> add_edge a b p = Ok p' -> consistent p'.
Proof.
  intros Hp H.
  destruct (add_edge_inv _ _ _ _ H) as (pre_b & post_a & Hpre & Hpost & ->).
  assert (Hma : dict_mem a (pre_graph (add_node b (add_node a p))) = true).
  { rewrite !add_node_mem, node_eq_refl. apply orb_true_r. }
  destruct (consistent_add_node b _ (consistent_add_node a _ Hp)) as [Hk Hc _ _].
  split; simpl; try (intros x Hx; discriminate).
  - rewrite !keys_dict_set_present; eauto using dict_get_mem.
  - intros k ps q Hget Hin. rewrite dict_mem_set.
    rewrite dict_get_set in Hget. destruct (node_eq b k) eqn:E.
    + injection Hget as <-. apply in_app_or in Hin.
      destruct Hin as [Hin | [<- | []]].
      * rewrite (Hc _ _ _ Hpre Hin). apply orb_true_r.
      * rewrite Hma. apply orb_true_r.
    + rewrite (Hc _ _ _ Hget Hin). apply orb_true_r.
Qed.

Lemma consistent_compute_node_levels fuel p d p1 :
  consistent p -> compute_node_levels fuel p = Ok (d, p1) ->
  consistent p1 /\
  exists fuel0, levels_loop fuel0 p (keys (pre_graph p)) [] = Ok d.
Proof.
  intros [Hk Hc Hl Hb] H.
  destruct (compute_node_levels_inv _ _ _ _ H)
    as [(_ & Hd & ->) | (_ & Hrun & ->)].
  - split; [split; assumption | apply Hl; exact Hd].
  - split; [|eauto].
    split; simpl; try assumption.
    + intros d' [= <-]. exists fuel.
      now rewrite (levels_loop_graph (set_node_levels p d) p).
    + intros b Hb'. destruct (Hb b Hb') as (f & d' & Hd' & Hfill).
      exists f, d'. split; [|exact Hfill].
      now rewrite (levels_loop_graph (set_node_levels p d) p).
Qed.

Lemma consistent_get_nodes_by_level fuel p b p2 :
  consistent p -> get_nodes_by_level fuel p = Ok (b, p2) -> consistent p2.
Proof.
  intros Hp H.
  destruct (get_nodes_by_level_inv _ _ _ _ H)
    as [(_ & _ & ->) | (_ & d & p1 & Hd & Hfill & ->)]; [exact Hp|].
  destruct (consistent_compute_node_levels _ _ _ _ Hp Hd) as ([Hk Hc Hl Hb] & f & Hf).
  destruct (compute_node_levels_frame _ _ _ _ Hd) as (Hpre & _ & _ & _).
  split; simpl; try assumption.
  - intros d' Hd'. destruct (Hl d' Hd') as (f' & Hf'). exists f'.
    now rewrite (levels_loop_graph (set_level_nodes p1 b) p1).
  - intros b' [= <-]. exists f, d. split; [|exact Hfill].
    rewrite (levels_loop_graph (set_level_nodes p1 b) p) by exact Hpre.
    simpl. rewrite Hpre. exact Hf.
Qed.

Lemma reachable_consistent p : reachable p -> consistent p.
Proof.
  induction 1 as [ | n p _ IH | a b p p' _ IH H | fuel p d p' _ IH H
                 | fuel p m p' _ IH H | fuel p b p' _ IH H ].
  - apply consistent_init.
  - now apply consistent_add_node.
  - eapply consistent_add_edge; eassumption.
  - eapply consistent_compute_node_levels; eassumption.
  - destruct (compute_max_level_inv _ _ _ _ H) as (d & Hd & _).
    eapply consistent_compute_node_levels; eassumption.
  - eapply consistent_get_nodes_by_level; eassumption.
Qed.

(** ** Levels of a consistent acyclic pipeline *)

Lemma compute_node_levels_acyclic p :
  consistent p -> acyclic p ->
  exists d,
    (forall fuel, S (List.length (pre_graph p)) <= fuel ->
       levels_loop fuel p (keys (pre_graph p)) [] = Ok d /\
       compute_node_levels fuel p =
       Ok (d, if truthy (node_levels p) then p else set_node_levels p d)) /\
    memo_ok (pre_graph p) d /\
    distinct_keys d /\
    (forall n, dict_mem n d = dict_mem n (pre_graph p)).
Proof.
  intros [Hk Hc Hl Hb] Hacyclic.
  destruct (fresh_levels p Hacyclic Hc) as (d & Hd & Hok & Hdist & Hmem).
  exists d. repeat split; auto.
  unfold compute_node_levels.
  destruct (truthy (node_levels p)) eqn:T.
  - destruct (node_levels p) as [d'|] eqn:E; [|discriminate].
    destruct (Hl d' E) as (f & Hf).
    now rewrite (levels_loop_deterministic _ _ _ _ _ _ _ Hf (Hd fuel H)).
  - now rewrite (Hd fuel H).
Qed.

Lemma has_levels_In memo ps lps q :
  has_levels memo ps lps -> In q ps ->
  exists lq, dict_get q memo = Some lq /\ In lq lps.
Proof.
  induction 1 as [|q0 l0 ps lps H0 _ IH]; simpl; [tauto|].
  intros [<-|Hq].
  - exists l0. auto.
  - destruct (IH Hq) as (lq & Hlq & Hin). exists lq. auto.
Qed.

Lemma has_levels_In_level memo ps lps lq :
  has_levels memo ps lps -> In lq lps ->
  exists q, In q ps /\ dict_get q memo = Some lq.
Proof.
  induction 1 as [|q0 l0 ps lps H0 _ IH]; simpl; [tauto|].
  intros [<-|Hl].
  - exists q0. auto.
  - destruct (IH Hl) as (q & Hq & Hget). exists q. auto.
Qed.

Lemma list_max_attained l : l <> [] -> In (list_max l) l.
Proof.
  induction l as [|a l IH]; [congruence|]. intros _.
  destruct l as [|b l].
  - simpl. left. lia.
  - change (list_max (a :: b :: l)) with (Nat.max a (list_max (b :: l))).
    destruct (Nat.max_spec a (list_max (b :: l))) as [[_ ->] | [_ ->]].
    + right. apply IH. discriminate.
    + left. reflexivity.
Qed.

Lemma list_max_ge l x : In x l -> x <= list_max l.
Proof.
  intros H. pose proof (proj1 (list_max_le l (list_max l)) (le_n _)) as F.
  rewrite Forall_forall in F. now apply F.
Qed.

(** ** Buckets *)

Lemma bucket_append_spec bs :
  forall i n, i < List.length bs ->
    exists bs',
      bucket_append i n bs = Ok bs' /\
      List.length bs' = List.length bs /\
      forall j, nth j bs' [] = nth j bs [] ++ (if j =? i then [n] else []).
Proof.
  induction bs as [|b bs IH]; intros i n Hi; simpl in Hi; [lia|].
  destruct i as [|i]; simpl.
  - eexists. repeat split. intros [|j]; simpl; [reflexivity|].
    now rewrite app_nil_r.
  - destruct (IH i n) as (bs' & -> & Hlen & Hnth); [lia|]. simpl.
    eexists. repeat split; [simpl; now rewrite Hlen|].
    intros [|j]; simpl; [now rewrite app_nil_r | apply Hnth].
Qed.

Lemma fill_buckets_spec d :
  forall bs,
    (forall k l, In (k, l) d -> l < List.length bs) ->
    exists bs',
      fill_buckets d bs = Ok bs' /\
      List.length bs' = List.length bs /\
      forall j, nth j bs' [] =
                nth j bs [] ++ map fst (filter (fun kl => snd kl =? j) d).
Proof.
  induction d as [|[k l] d IH]; intros bs Hlt; simpl.
  - exists bs. repeat split. intros j. now rewrite app_nil_r.
  - destruct (bucket_append_spec bs l k) as (bs1 & -> & Hlen1 & Hnth1).
    { eapply Hlt. left; reflexivity. }
    simpl. destruct (IH bs1) as (bs' & -> & Hlen & Hnth).
    { intros k' l' Hin. rewrite Hlen1. eapply Hlt. right; exact Hin. }
    exists bs'. repeat split; [congruence|].
    intros j. rewrite Hnth, Hnth1, <- app_assoc. f_equal.
    rewrite (Nat.eqb_sym j l). destruct (l =? j); reflexivity.
Qed.

Lemma fold_max_ge (d : dict nat) :
  forall a,
    a <= fold_left (fun mx '(_, l) => Nat.max l mx) d a /\
    forall k l, In (k, l) d ->
      l <= fold_left (fun mx '(_, l) => Nat.max l mx) d a.
Proof.
  induction d as [|[k0 l0] d IH]; intros a; simpl.
  - split; [lia | tauto].
  - destruct (IH (Nat.max l0 a)) as [Ha Hin]. split; [lia|].
    intros k l [[= <- <-]|H]; [lia | eauto].
Qed.

Lemma max_level_of_ge d k l : In (k, l) d -> l <= max_level_of d.
Proof. apply (fold_max_ge d 0). Qed.

Lemma count_node_absent n (d : dict nat) j :
  dict_get n d = None ->
  count_node n (map fst (filter (fun kl => snd kl =? j) d)) = 0.
Proof.
  unfold count_node.
  induction d as [|[k l] d IH]; simpl; [reflexivity|].
  destruct (node_eq k n) eqn:E; [discriminate|]. intros H.
  destruct (l =? j); simpl; [|auto].
  rewrite node_eq_sym, E. auto.
Qed.

Lemma count_node_present n (d : dict nat) l :
  distinct_keys d -> dict_get n d = Some l ->
  forall j, count_node n (map fst (filter (fun kl => snd kl =? j) d)) =
            if j =? l then 1 else 0.
Proof.
  induction d as [|[k l0] d IH]; simpl; [discriminate|].
  intros [Hk Hd] Hget j.
  destruct (node_eq k n) eqn:E.
  - injection Hget as ->.
    rewrite (dict_get_eq _ _ d E) in Hk.
    pose proof (count_node_absent n d j Hk) as H0.
    rewrite (Nat.eqb_sym j l).
    destruct (l =? j); simpl; [|exact H0].
    unfold count_node in *. simpl. rewrite node_eq_sym, E. simpl. now rewrite H0.
  - specialize (IH Hd Hget j).
    destruct (l0 =? j); simpl; [|exact IH].
    unfold count_node in *. simpl. rewrite node_eq_sym, E. exact IH.
Qed.

Lemma In_dict_mem {V : Type} k (v : V) d : In (k, v) d -> dict_mem k d = true.
Proof.
  intros H. apply In_keys_dict_mem. unfold keys.
  change k with (fst (k, v)). now apply in_map.
Qed.

(** The buckets of an acyclic pipeline, and what both caches then hold. *)
Lemma get_nodes_by_level_acyclic p :
  consistent p -> acyclic p ->
  exists d b,
    (forall fuel, S (List.length (pre_graph p)) <= fuel ->
       levels_loop fuel p (keys (pre_graph p)) [] = Ok d /\
       exists p1 p2,
         compute_node_levels fuel p = Ok (d, p1) /\
         get_nodes_by_level fuel p = Ok (b, p2)) /\
    memo_ok (pre_graph p) d /\
    distinct_keys d /\
    (forall n, dict_mem n d = dict_mem n (pre_graph p)) /\
    List.length b = max_level_of d + 1 /\
    (forall j, nth j b [] = map fst (filter (fun kl => snd kl =? j) d)).
Proof.
  intros Hp Hacyclic.
  destruct (compute_node_levels_acyclic p Hp Hacyclic)
    as (d & Hd & Hok & Hdist & Hmem).
  destruct (fill_buckets_spec d (repeat [] (max_level_of d + 1)))
    as (b & Hfill & Hlen & Hnth).
  { intros k l Hin. rewrite repeat_length.
    pose proof (max_level_of_ge d k l Hin). lia. }
  exists d, b. repeat split; auto.
  - apply Hd; assumption.
  - destruct (Hd fuel H) as [Hloop Hcompute].
    eexists. 
    unfold get_nodes_by_level.
    destruct (truthy (level_nodes p)) eqn:T.
    + destruct (level_nodes p) as [b'|] eqn:E; [|discriminate].
      destruct (buckets_cached p Hp b' E) as (f & d' & Hd' & Hfill').
      rewrite (levels_loop_deterministic _ _ _ _ _ _ _ Hd' Hloop) in Hfill'.
      assert (Hbb : b' = b) by congruence. subst b'.
      eexists. split; [exact Hcompute | reflexivity].
    + eexists. split; [exact Hcompute|].
      rewrite Hcompute. cbn [bind].
      unfold compute_max_level.
      rewrite (compute_node_levels_again _ fuel _ _ _ Hcompute). cbn [bind].
      fold (max_level_of d). rewrite Hfill. cbn [bind]. reflexivity.
  - rewrite Hlen. apply repeat_length.
  - intros j. rewrite Hnth.
    replace (nth j (repeat [] (max_level_of d + 1)) []) with (@nil Node);
      [reflexivity|].
    symmetry. apply nth_repeat.
Qed.

(** ** Facts about the sample pipelines *)

Lemma add_edges_reachable edges :
  forall p p', reachable p -> add_edges edges p = Ok p' -> reachable p'.
Proof.
  induction edges as [|[a b] rest IH]; intros p p' Hp H; simpl in H.
  - injection H as <-. exact Hp.
  - inv_bind H. eapply IH; [|exact H].
    eapply reachable_add_edge; eassumption.
Qed.

Lemma ranked_acyclic rank p :
  (forall a b, node_eq a b = true -> rank a = rank b) ->
  ranked rank (pre_graph p) = true -> acyclic p.
Proof.
  intros Heq Hr.
  assert (Hpred : forall q n, is_pred (pre_graph p) q n -> rank q < rank n).
  { intros q n (ps & q' & Hps & Hin & Hq).
    destruct (dict_get_In _ _ _ Hps) as (k0 & Hk0 & Hk).
    unfold ranked in Hr. rewrite forallb_forall in Hr.
    specialize (Hr _ Hk0). simpl in Hr. rewrite forallb_forall in Hr.
    specialize (Hr _ Hin). apply Nat.ltb_lt in Hr.
    rewrite <- (Heq _ _ Hq), <- (Heq _ _ Hk). exact Hr. }
  assert (Hreach : forall q n, reaches (pre_graph p) q n -> rank q < rank n).
  { intros q n R. induction R as [q n H | q m n _ IH H].
    - now apply Hpred.
    - apply Hpred in H. lia. }
  intros n m R. destruct (node_eq n m) eqn:E; [|reflexivity].
  apply Hreach in R. rewrite (Heq _ _ E) in R. lia.
Qed.

Lemma rank_by_id_eq a b : node_eq a b = true -> rank_by_id a = rank_by_id b.
Proof.
  intros H. apply node_eq_key in H. unfold rank_by_id.
  injection H as _ -> _. reflexivity.
Qed.

(** Two sources feeding one node: levels 0, 0 and 1. *)
Example join_levels :
  (p <- add_edges join_edges Pipeline_init ;;
   returned (compute_node_levels 4 p))
    = Ok [(node_a, 0); (node_b, 0); (node_c, 1)] /\
  (p <- add_edges join_edges Pipeline_init ;;
   returned (get_nodes_by_level 4 p))
    = Ok [[node_a; node_b]; [node_c]].
Proof. split; reflexivity. Qed.

(** A chain of four nodes: four singleton buckets. *)
Example chain_levels :
  (p <- add_edges chain_edges Pipeline_init ;;
   returned (compute_node_levels 5 p))
    = Ok [(node_a, 0); (node_b, 1); (node_c, 2); (node_d, 3)] /\
  (p <- add_edges chain_edges Pipeline_init ;;
   returned (get_nodes_by_level 5 p))
    = Ok [[node_a]; [node_b]; [node_c]; [node_d]].
Proof. split; reflexivity. Qed.

(** The diamond: the sink sits two levels below the source. *)
Example diamond_levels :
  returned (compute_node_levels 5 diamond)
    = Ok [(node_a, 0); (node_b, 1); (node_c, 1); (node_d, 2)] /\
  returned (get_nodes_by_level 5 diamond)
    = Ok [[node_a]; [node_b; node_c]; [node_d]].
Proof. split; reflexivity. Qed.

(** A self-loop exhausts whatever budget it is given, here 100. *)
Example self_loop_never_levels :
  (p <- add_edge node_a node_a Pipeline_init ;;
   returned (compute_node_levels 100 p)) = OutOfFuel.
Proof. reflexivity. Qed.

(** Edges of a node that was never added: a lookup error. *)
Example get_pre_edges_unknown_node :
  get_pre_edges diamond (estimator_node "e" 5%N) = Raise KeyError.
Proof. reflexivity. Qed.

Lemma diamond_reachable : reachable diamond.
Proof.
  apply (add_edges_reachable diamond_edges Pipeline_init).
  - apply reachable_init.
  - reflexivity.
Qed.

Lemma diamond_acyclic : acyclic diamond.
Proof. apply (ranked_acyclic rank_by_id); [apply rank_by_id_eq | reflexivity]. Qed.

Lemma single_leveled_reachable : reachable single_leveled.
Proof.
  apply (reachable_get_nodes_by_level 2 (add_node node_a Pipeline_init) [[node_a]]).
  - apply reachable_add_node, reachable_init.
  - reflexivity.
Qed.

(** * The claims *)

(** C1. On a pipeline built through the API whose graph is acyclic,
    [compute_node_levels] returns (for every recursion budget above the
    number of nodes) one level mapping in which every node [n] of the
    graph has a level [l] obeying the longest-path recurrence: [l = 0]
    when the predecessor list of [n] is empty, [l = 1 + max] of the
    predecessors' levels otherwise; hence every predecessor's level is at
    most [l - 1], and some predecessor's level is exactly [l - 1]. *)
Theorem compute_node_levels_longest_path (p : Pipeline) :
  reachable p -> acyclic p ->
  exists levels p',
    (forall fuel, S (List.length (pre_graph p)) <= fuel ->
       compute_node_levels fuel p = Ok (levels, p')) /\
    forall n ps, dict_get n (pre_graph p) = Some ps ->
      exists l lps,
        dict_get n levels = Some l /\
        has_levels levels ps lps /\
        (ps = [] -> l = 0) /\
        (ps <> [] -> l = 1 + list_max lps) /\
        (forall q, In q ps ->
           exists lq, dict_get q levels = Some lq /\ lq + 1 <= l) /\
        (ps <> [] ->
           exists q lq, In q ps /\ dict_get q levels = Some lq /\ l = lq + 1).
Proof.
  intros Hreach Hacyclic.
  pose proof (reachable_consistent p Hreach) as Hp.
  destruct (compute_node_levels_acyclic p Hp Hacyclic)
    as (d & Hd & Hok & _ & Hmem).
  exists d, (if truthy (node_levels p) then p else set_node_levels p d).
  split; [intros fuel Hfuel; apply (Hd fuel Hfuel)|].
  intros n ps Hps.
  assert (Hn : dict_mem n d = true)
    by (rewrite Hmem; eapply dict_get_mem; exact Hps).
  unfold dict_mem in Hn. destruct (dict_get n d) as [l|] eqn:Hl; [|discriminate].
  destruct (Hok n l Hl) as (ps' & lps & Hps' & Hlv & Hrec).
  assert (ps' = ps) by congruence. subst ps'.
  exists l, lps. repeat split; try assumption.
  - intros ->. exact Hrec.
  - intros Hne. destruct ps; [congruence | exact Hrec].
  - intros q Hq. destruct (has_levels_In _ _ _ _ Hlv Hq) as (lq & Hlq & Hin).
    exists lq. split; [exact Hlq|].
    pose proof (list_max_ge _ _ Hin).
    destruct ps; [destruct Hq | simpl in Hrec; lia].
  - intros Hne.
    assert (Hlps : lps <> []).
    { intros ->. inversion Hlv. congruence. }
    destruct (has_levels_In_level _ _ _ _ Hlv (list_max_attained lps Hlps))
      as (q & Hq & Hget).
    exists q, (list_max lps). repeat split; try assumption.
    destruct ps; [congruence | simpl in Hrec; lia].
Qed.

Lemma compute_node_levels_longest_path_witness :
  reachable diamond /\ acyclic diamond /\
  exists levels p',
    (forall fuel, S (List.length (pre_graph diamond)) <= fuel ->
       compute_node_levels fuel diamond = Ok (levels, p')) /\
    forall n ps, dict_get n (pre_graph diamond) = Some ps ->
      exists l lps,
        dict_get n levels = Some l /\
        has_levels levels ps lps /\
        (ps = [] -> l = 0) /\
        (ps <> [] -> l = 1 + list_max lps) /\
        (forall q, In q ps ->
           exists lq, dict_get q levels = Some lq /\ lq + 1 <= l) /\
        (ps <> [] ->
           exists q lq, In q ps /\ dict_get q levels = Some lq /\ l = lq + 1).
Proof.
  split; [exact diamond_reachable|].
  split; [exact diamond_acyclic|].
  exact (compute_node_levels_longest_path diamond
           diamond_reachable diamond_acyclic).
Defined.

(** C2 fails as stated: in a world whose uuid draws differ, the clone of
    a freshly built [AndNode] (and of a freshly built [EstimatorNode])
    carries a new id and is not equal to its original. *)
Lemma clone_not_equal_to_original :
  AndNode "merge" joiner counting_world
    = Ok (and_node "merge" 0%N, {| uuid_source := N.of_nat; uuid_drawn := 1 |}) /\
  clone copying_clone (and_node "merge" 0%N)
        {| uuid_source := N.of_nat; uuid_drawn := 1 |}
    = Ok (and_node "merge" 1%N, {| uuid_source := N.of_nat; uuid_drawn := 2 |}) /\
  node_eq (and_node "merge" 1%N) (and_node "merge" 0%N) = false /\
  EstimatorNode "scale" scaler counting_world
    = Ok (estimator_node "scale" 0%N,
          {| uuid_source := N.of_nat; uuid_drawn := 1 |}) /\
  clone copying_clone (estimator_node "scale" 0%N)
        {| uuid_source := N.of_nat; uuid_drawn := 1 |}
    = Ok (estimator_node "scale" 1%N,
          {| uuid_source := N.of_nat; uuid_drawn := 2 |}) /\
  node_eq (estimator_node "scale" 1%N) (estimator_node "scale" 0%N) = false.
Proof. repeat split. Qed.

(** C2, amended. When [clone] returns, the new node has the class and
    the name of the original, but its id is the next uuid drawn by the
    constructor; it is equal to the original exactly when that draw
    repeats the original's id.  An [AndNode] clone shares the merge
    function; an [EstimatorNode] clone holds what [base.clone] returned. *)
Theorem clone_draws_a_new_id
    (base_clone : PyObject -> outcome PyObject) (n n' : Node) (w w' : World) :
  clone base_clone n w = Ok (n', w') ->
  node_class n' = node_class n /\
  node_name n' = node_name n /\
  node_id n' = fst (uuid4 w) /\
  w' = snd (uuid4 w) /\
  node_eq n' n = N.eqb (fst (uuid4 w)) (node_id n) /\
  (node_class n = AndNodeClass -> node_capability n' = node_capability n) /\
  (node_class n = EstimatorNodeClass ->
     base_clone (node_capability n) = Ok (node_capability n')).
Proof.
  unfold clone. destruct (node_class n) eqn:Hc.
  - intros H. inv_bind H. unfold EstimatorNode, Node_init in H. simpl in H.
    injection H as <- <-. simpl.
    unfold node_eq. simpl. rewrite Hc, String.eqb_refl, andb_true_r. simpl.
    repeat split; try reflexivity; try discriminate. intros _. exact Hr.
  - unfold AndNode, Node_init. simpl. intros [= <- <-]. simpl.
    unfold node_eq. simpl. rewrite Hc, String.eqb_refl, andb_true_r. simpl.
    repeat split; try reflexivity; discriminate.
Qed.

Lemma clone_draws_a_new_id_witness :
  clone copying_clone (estimator_node "scale" 0%N)
        {| uuid_source := N.of_nat; uuid_drawn := 1 |}
    = Ok (estimator_node "scale" 1%N,
          {| uuid_source := N.of_nat; uuid_drawn := 2 |}) /\
  node_id (estimator_node "scale" 1%N) = 1%N /\
  node_eq (estimator_node "scale" 1%N) (estimator_node "scale" 0%N) = false.
Proof.
  split; [reflexivity|].
  destruct (clone_draws_a_new_id copying_clone
              (estimator_node "scale" 0%N) (estimator_node "scale" 1%N)
              {| uuid_source := N.of_nat; uuid_drawn := 1 |}
              {| uuid_source := N.of_nat; uuid_drawn := 2 |} eq_refl)
    as (_ & _ & Hid & _ & Heq & _).
  split; [exact Hid | exact Heq].
Defined.

(** C3 fails as stated: both constructors accept an object that has
    neither [fit] nor [transform] and return a node. *)
Lemma construction_accepts_bare_object :
  fit_transform_contract bare_object = false /\
  and_transform_contract bare_object = false /\
  EstimatorNode "scale" bare_object counting_world
    = Ok ({| node_class := EstimatorNodeClass; node_name := "scale";
             node_input_type := OR; node_firing_type := ANY;
             node_state_type := IMMUTABLE; node_id := 0%N;
             node_capability := bare_object |},
          {| uuid_source := N.of_nat; uuid_drawn := 1 |}) /\
  AndNode "merge" bare_object counting_world
    = Ok ({| node_class := AndNodeClass; node_name := "merge";
             node_input_type := AND; node_firing_type := ANY;
             node_state_type := STATELESS; node_id := 0%N;
             node_capability := bare_object |},
          {| uuid_source := N.of_nat; uuid_drawn := 1 |}).
Proof. repeat split. Qed.

(** C3, amended. Constructing either variant never raises, whatever the
    capability object offers: with no check of the transform contract,
    the constructor returns a node of its class with the given name,
    whose id is the next uuid drawn and which stores the object as it
    was passed. *)
Theorem construction_never_raises (name : string) (cap : PyObject) (w : World) :
  (exists n w', EstimatorNode name cap w = Ok (n, w') /\
                node_class n = EstimatorNodeClass /\ node_name n = name /\
                get_estimator n = cap /\ node_id n = fst (uuid4 w)) /\
  (exists n w', AndNode name cap w = Ok (n, w') /\
                node_class n = AndNodeClass /\ node_name n = name /\
                get_and_func n = cap /\ node_id n = fst (uuid4 w)).
Proof.
  split; eexists; eexists; (split; [reflexivity|]); simpl; auto.
Qed.

(** C4 fails as stated: after [get_nodes_by_level] has filled both caches
    of a one-node pipeline, adding that same node again empties them. *)
Lemma add_node_again_drops_caches :
  reachable single_leveled /\
  dict_mem node_a (pre_graph single_leveled) = true /\
  node_levels single_leveled = Some [(node_a, 0)] /\
  level_nodes single_leveled = Some [[node_a]] /\
  node_levels (add_node node_a single_leveled) = None /\
  level_nodes (add_node node_a single_leveled) = None /\
  add_node node_a single_leveled <> single_leveled.
Proof.
  split; [exact single_leveled_reachable|].
  repeat split. discriminate.
Qed.

(** C4, amended. Adding a node that is already a key of the graph leaves
    [pre_graph] and [post_graph] as they were and resets both level
    caches to absent. *)
Theorem add_node_existing (p : Pipeline) (n : Node) :
  dict_mem n (pre_graph p) = true ->
  add_node n p =
  {| pre_graph := pre_graph p; post_graph := post_graph p;
     node_levels := None; level_nodes := None |}.
Proof. intros H. unfold add_node. rewrite H. reflexivity. Qed.

Lemma add_node_existing_witness :
  dict_mem node_a (pre_graph single_leveled) = true /\
  add_node node_a single_leveled =
  {| pre_graph := pre_graph single_leveled;
     post_graph := post_graph single_leveled;
     node_levels := None; level_nodes := None |}.
Proof.
  split; [reflexivity|].
  apply (add_node_existing single_leveled node_a). reflexivity.
Defined.

(** C5. For every node added to a pipeline, [get_post_edges] returns a
    non-empty list (the single sentinel edge when the node has no
    successors), so [is_terminal] returns [False] for it. *)
Theorem is_terminal_always_false (p : Pipeline) (n : Node) :
  reachable p -> dict_mem n (pre_graph p) = true ->
  exists edges,
    get_post_edges p n = Ok edges /\
    edges <> [] /\
    (dict_get n (post_graph p) = Some [] ->
       edges = [{| from_node := Some n; to_node := None |}]) /\
    is_terminal p n = Ok false.
Proof.
  intros Hreach Hn.
  pose proof (same_keys p (reachable_consistent p Hreach)) as Hk.
  rewrite (dict_mem_keys n _ _ Hk) in Hn.
  unfold is_terminal, get_post_edges, dict_mem in *.
  destruct (dict_get n (post_graph p)) as [[|q qs]|]; [| |discriminate].
  - eexists. repeat split; discriminate.
  - eexists. repeat split; discriminate.
Qed.

Lemma is_terminal_always_false_witness :
  reachable diamond /\ dict_mem node_d (pre_graph diamond) = true /\
  exists edges,
    get_post_edges diamond node_d = Ok edges /\
    edges <> [] /\
    (dict_get node_d (post_graph diamond) = Some [] ->
       edges = [{| from_node := Some node_d; to_node := None |}]) /\
    is_terminal diamond node_d = Ok false.
Proof.
  split; [exact diamond_reachable|].
  split; [reflexivity|].
  apply (is_terminal_always_false diamond node_d diamond_reachable).
  reflexivity.
Defined.

(** C6. On an acyclic pipeline, [get_nodes_by_level] returns
    [max level + 1] buckets that partition the nodes of the pipeline:
    every node of the graph occurs exactly once in the bucket of its
    computed level and in no other bucket, and the buckets hold nothing
    but nodes of the graph. *)
Theorem get_nodes_by_level_partition (p : Pipeline) :
  reachable p -> acyclic p ->
  exists levels buckets,
    (forall fuel, S (List.length (pre_graph p)) <= fuel ->
       exists p1 p2,
         compute_node_levels fuel p = Ok (levels, p1) /\
         get_nodes_by_level fuel p = Ok (buckets, p2)) /\
    List.length buckets = max_level_of levels + 1 /\
    (forall n, dict_mem n (pre_graph p) = true ->
       exists l,
         dict_get n levels = Some l /\
         forall i, count_node n (nth i buckets []) = if i =? l then 1 else 0) /\
    (forall i m, In m (nth i buckets []) -> dict_mem m (pre_graph p) = true).
Proof.
  intros Hreach Hacyclic.
  pose proof (reachable_consistent p Hreach) as Hp.
  destruct (get_nodes_by_level_acyclic p Hp Hacyclic)
    as (d & b & Hrun & Hok & Hdist & Hmem & Hlen & Hnth).
  exists d, b. repeat split.
  - intros fuel Hfuel. apply (Hrun fuel Hfuel).
  - exact Hlen.
  - intros n Hn. rewrite <- Hmem in Hn. unfold dict_mem in Hn.
    destruct (dict_get n d) as [l|] eqn:Hl; [|discriminate].
    exists l. split; [reflexivity|].
    intros i. rewrite Hnth. now apply count_node_present.
  - intros i m Hin. rewrite Hnth in Hin.
    apply in_map_iff in Hin. destruct Hin as ([k l] & <- & Hin).
    apply filter_In in Hin. destruct Hin as [Hin _].
    rewrite <- Hmem. eapply In_dict_mem; exact Hin.
Qed.

Lemma get_nodes_by_level_partition_witness :
  reachable diamond /\ acyclic diamond /\
  exists levels buckets,
    (forall fuel, S (List.length (pre_graph diamond)) <= fuel ->
       exists p1 p2,
         compute_node_levels fuel diamond = Ok (levels, p1) /\
         get_nodes_by_level fuel diamond = Ok (buckets, p2)) /\
    List.length buckets = max_level_of levels + 1 /\
    (forall n, dict_mem n (pre_graph diamond) = true ->
       exists l,
         dict_get n levels = Some l /\
         forall i, count_node n (nth i buckets []) = if i =? l then 1 else 0) /\
    (forall i m, In m (nth i buckets []) ->
       dict_mem m (pre_graph diamond) = true).
Proof.
  split; [exact diamond_reachable|].
  split; [exact diamond_acyclic|].
  exact (get_nodes_by_level_partition diamond diamond_reachable diamond_acyclic).
Defined.

(** C7. For a node added to a pipeline, [get_pre_edges] returns the one
    edge [Edge(None, n)] when the predecessor list is empty and otherwise
    one [Edge(p, n)] per entry of the list, in list order; and
    [get_post_edges] of a node without successors returns the one edge
    [Edge(n, None)]. *)
Theorem get_pre_edges_sentinel (p : Pipeline) (n : Node) :
  reachable p -> dict_mem n (pre_graph p) = true ->
  exists pre_nodes post_nodes,
    dict_get n (pre_graph p) = Some pre_nodes /\
    dict_get n (post_graph p) = Some post_nodes /\
    get_pre_edges p n =
      Ok (match pre_nodes with
          | [] => [{| from_node := None; to_node := Some n |}]
          | _ :: _ =>
              map (fun q => {| from_node := Some q; to_node := Some n |})
                pre_nodes
          end) /\
    (post_nodes = [] ->
       get_post_edges p n = Ok [{| from_node := Some n; to_node := None |}]).
Proof.
  intros Hreach Hn.
  pose proof (same_keys p (reachable_consistent p Hreach)) as Hk.
  pose proof Hn as Hn'. rewrite (dict_mem_keys n _ _ Hk) in Hn'.
  unfold get_pre_edges, get_post_edges, dict_mem in *.
  destruct (dict_get n (pre_graph p)) as [pre_nodes|]; [|discriminate].
  destruct (dict_get n (post_graph p)) as [post_nodes|]; [|discriminate].
  exists pre_nodes, post_nodes. repeat split.
  - destruct pre_nodes; reflexivity.
  - intros ->. reflexivity.
Qed.

Lemma get_pre_edges_sentinel_witness :
  reachable diamond /\ dict_mem node_a (pre_graph diamond) = true /\
  get_pre_edges diamond node_a
    = Ok [{| from_node := None; to_node := Some node_a |}] /\
  get_pre_edges diamond node_d
    = Ok [{| from_node := Some node_b; to_node := Some node_d |};
          {| from_node := Some node_c; to_node := Some node_d |}] /\
  get_post_edges diamond node_d
    = Ok [{| from_node := Some node_d; to_node := None |}].
Proof.
  split; [exact diamond_reachable|].
  split; [reflexivity|].
  destruct (get_pre_edges_sentinel diamond node_a diamond_reachable eq_refl)
    as (pre_a & post_a & Hpre_a & _ & Hedges_a & _).
  destruct (get_pre_edges_sentinel diamond node_d diamond_reachable eq_refl)
    as (pre_d & post_d & Hpre_d & Hpost_d & Hedges_d & Hsink_d).
  injection Hpre_a as <-. injection Hpre_d as <-. injection Hpost_d as <-.
  split; [exact Hedges_a|].
  split; [exact Hedges_d | exact (Hsink_d eq_refl)].
Defined.

(** C8. On an acyclic pipeline, a second call of [compute_node_levels]
    with no [add_node] or [add_edge] in between returns the very mapping
    the first call returned. *)
Theorem compute_node_levels_idempotent (p : Pipeline) :
  reachable p -> acyclic p ->
  exists levels p1,
    (forall fuel, S (List.length (pre_graph p)) <= fuel ->
       compute_node_levels fuel p = Ok (levels, p1)) /\
    (forall fuel, compute_node_levels fuel p1 = Ok (levels, p1)).
Proof.
  intros Hreach Hacyclic.
  pose proof (reachable_consistent p Hreach) as Hp.
  destruct (compute_node_levels_acyclic p Hp Hacyclic) as (d & Hd & _).
  exists d, (if truthy (node_levels p) then p else set_node_levels p d).
  split; [intros fuel Hfuel; apply (Hd fuel Hfuel)|].
  intros fuel.
  apply (compute_node_levels_again (S (List.length (pre_graph p))) fuel p).
  apply Hd. apply le_n.
Qed.

Lemma compute_node_levels_idempotent_witness :
  reachable diamond /\ acyclic diamond /\
  exists levels p1,
    (forall fuel, S (List.length (pre_graph diamond)) <= fuel ->
       compute_node_levels fuel diamond = Ok (levels, p1)) /\
    (forall fuel, compute_node_levels fuel p1 = Ok (levels, p1)).
Proof.
  split; [exact diamond_reachable|].
  split; [exact diamond_acyclic|].
  exact (compute_node_levels_idempotent diamond diamond_reachable diamond_acyclic).
Defined.

(** C9. In every pipeline reached from the empty one by calls of the API
    ([add_node] and [add_edge] among them), [pre_graph] and [post_graph]
    have the same keys: the same nodes, in the same order, so a node is a
    key of one exactly when it is a key of the other. *)
Theorem pre_post_same_keys (p : Pipeline) :
  reachable p ->
  keys (pre_graph p) = keys (post_graph p) /\
  forall n, dict_mem n (pre_graph p) = dict_mem n (post_graph p).
Proof.
  intros Hreach.
  pose proof (same_keys p (reachable_consistent p Hreach)) as Hk.
  split; [exact Hk|]. intros n. now apply dict_mem_keys.
Qed.

Lemma pre_post_same_keys_witness :
  reachable diamond /\
  keys (pre_graph diamond) = keys (post_graph diamond) /\
  forall n, dict_mem n (pre_graph diamond) = dict_mem n (post_graph diamond).
Proof.
  split; [exact diamond_reachable|].
  exact (pre_post_same_keys diamond diamond_reachable).
Defined.

(** C10. On a freshly constructed pipeline [compute_max_level] returns 0,
    and [get_nodes_by_level] (called first, or after [compute_max_level])
    returns exactly one bucket, which is empty. *)
Theorem empty_pipeline_levels (fuel fuel' : nat) :
  compute_max_level fuel Pipeline_init
    = Ok (0, set_node_levels Pipeline_init []) /\
  get_nodes_by_level fuel Pipeline_init
    = Ok ([[]], set_level_nodes (set_node_levels Pipeline_init []) [[]]) /\
  get_nodes_by_level fuel' (set_node_levels Pipeline_init [])
    = Ok ([[]], set_level_nodes (set_node_levels Pipeline_init []) [[]]).
Proof. repeat split. Qed.

(** * Further properties of the code *)

(** ** Equality and hashing of nodes and edges *)

(** X1. [Node.__eq__] is an equivalence relation that looks at nothing
    but the class, the id and the name of the two nodes: the wrapped
    capability and the input, firing and state types play no part. *)
Theorem node_eq_equivalence :
  (forall a, node_eq a a = true) /\
  (forall a b, node_eq a b = node_eq b a) /\
  (forall a b c, node_eq a b = true -> node_eq b c = true -> node_eq a c = true) /\
  (forall a b,
     node_eq a b = true <->
     node_class a = node_class b /\ node_id a = node_id b /\
     node_name a = node_name b).
Proof.
  repeat split.
  - apply node_eq_refl.
  - apply node_eq_sym.
  - apply node_eq_trans.
  - apply node_eq_key in H. injection H as -> _ _. reflexivity.
  - apply node_eq_key in H. injection H as _ -> _. reflexivity.
  - apply node_eq_key in H. injection H as _ _ ->. reflexivity.
  - intros (Hc & Hi & Hn). apply node_eq_key. unfold node_key. congruence.
Qed.

(** X2. Nodes that compare equal hash alike, whatever [UUID.__hash__]
    computes: the hash is taken from the id, which equality compares. *)
Theorem Node_hash_respects_eq (uuid_hash : UUID -> Z) (a b : Node) :
  node_eq a b = true -> Node_hash uuid_hash a = Node_hash uuid_hash b.
Proof.
  intros H. apply node_eq_key in H. injection H as _ Hid _.
  unfold Node_hash. now rewrite Hid.
Qed.

Lemma Node_hash_respects_eq_witness :
  node_eq (estimator_node "a" 7%N)
          {| node_class := EstimatorNodeClass; node_name := "a";
             node_input_type := AND; node_firing_type := ALL;
             node_state_type := STATELESS; node_id := 7%N;
             node_capability := bare_object |} = true /\
  Node_hash Z.of_N (estimator_node "a" 7%N) =
  Node_hash Z.of_N
          {| node_class := EstimatorNodeClass; node_name := "a";
             node_input_type := AND; node_firing_type := ALL;
             node_state_type := STATELESS; node_id := 7%N;
             node_capability := bare_object |}.
Proof.
  split; [reflexivity|].
  apply (Node_hash_respects_eq Z.of_N (estimator_node "a" 7%N)). reflexivity.
Defined.

Lemma endpoint_hash_respects_eq uuid_hash none_hash a b :
  endpoint_eq a b = true ->
  endpoint_hash uuid_hash none_hash a = endpoint_hash uuid_hash none_hash b.
Proof.
  destruct a as [x|], b as [y|]; simpl; try discriminate; [|reflexivity].
  intros H. apply node_eq_key in H. injection H as _ Hid _.
  unfold Node_hash. now rewrite Hid.
Qed.

(** X3. Edges that compare equal hash alike, sentinel edges included. *)
Theorem Edge_hash_respects_eq
    (uuid_hash : UUID -> Z) (none_hash : Z) (e1 e2 : Edge) :
  Edge_eq e1 e2 = true ->
  Edge_hash uuid_hash none_hash e1 = Edge_hash uuid_hash none_hash e2.
Proof.
  unfold Edge_eq, Edge_hash. rewrite andb_true_iff. intros [Hf Ht].
  now rewrite (endpoint_hash_respects_eq _ _ _ _ Hf),
              (endpoint_hash_respects_eq _ _ _ _ Ht).
Qed.

Lemma Edge_hash_respects_eq_witness :
  Edge_eq {| from_node := None; to_node := Some (estimator_node "a" 7%N) |}
          {| from_node := None;
             to_node := Some {| node_class := EstimatorNodeClass;
                                node_name := "a";
                                node_input_type := AND;
                                node_firing_type := ALL;
                                node_state_type := STATELESS;
                                node_id := 7%N;
                                node_capability := bare_object |} |} = true /\
  Edge_hash Z.of_N 5%Z
          {| from_node := None; to_node := Some (estimator_node "a" 7%N) |} =
  Edge_hash Z.of_N 5%Z
          {| from_node := None;
             to_node := Some {| node_class := EstimatorNodeClass;
                                node_name := "a";
                                node_input_type := AND;
                                node_firing_type := ALL;
                                node_state_type := STATELESS;
                                node_id := 7%N;
                                node_capability := bare_object |} |}.
Proof.
  split; [reflexivity|].
  apply (Edge_hash_respects_eq Z.of_N 5%Z
           {| from_node := None; to_node := Some (estimator_node "a" 7%N) |}).
  reflexivity.
Defined.

(** X4. Direction matters to edge equality but not to the edge hash:
    [Edge(a, b) == Edge(b, a)] exactly when [a == b], the two edges always
    hash alike, an edge from a node to itself hashes to 0, and a sentinel
    edge never equals an edge with both endpoints. *)
Theorem Edge_reversal
    (uuid_hash : UUID -> Z) (none_hash : Z) (a b : Node) :
  Edge_eq {| from_node := Some a; to_node := Some b |}
          {| from_node := Some b; to_node := Some a |} = node_eq a b /\
  Edge_hash uuid_hash none_hash {| from_node := Some a; to_node := Some b |} =
  Edge_hash uuid_hash none_hash {| from_node := Some b; to_node := Some a |} /\
  Edge_hash uuid_hash none_hash {| from_node := Some a; to_node := Some a |} = 0%Z /\
  Edge_eq {| from_node := None; to_node := Some b |}
          {| from_node := Some a; to_node := Some b |} = false /\
  Edge_eq {| from_node := Some a; to_node := None |}
          {| from_node := Some a; to_node := Some b |} = false.
Proof.
  unfold Edge_eq, Edge_hash. simpl. repeat split.
  - rewrite (node_eq_sym b a). apply andb_diag.
  - apply Z.lxor_comm.
  - apply Z.lxor_nilpotent.
  - rewrite node_eq_refl. reflexivity.
Qed.

(** X5. Two nodes built one after the other are different nodes as soon
    as the two uuid draws differ, even when they are given the same name
    and the same capability; added to a pipeline they are two keys. *)
Theorem separate_constructions_differ
    (name1 name2 : string) (cap1 cap2 : PyObject)
    (w w1 w2 : World) (n1 n2 : Node) :
  EstimatorNode name1 cap1 w = Ok (n1, w1) \/ AndNode name1 cap1 w = Ok (n1, w1) ->
  EstimatorNode name2 cap2 w1 = Ok (n2, w2) \/ AndNode name2 cap2 w1 = Ok (n2, w2) ->
  uuid_source w (uuid_drawn w) <> uuid_source w (S (uuid_drawn w)) ->
  node_eq n1 n2 = false /\
  keys (pre_graph (add_node n2 (add_node n1 Pipeline_init))) = [n1; n2].
Proof.
  intros H1 H2 Hdraw.
  assert (Hid1 : node_id n1 = uuid_source w (uuid_drawn w) /\
                 w1 = snd (uuid4 w)).
  { destruct H1 as [H1|H1]; injection H1 as <- <-; split; reflexivity. }
  destruct Hid1 as [Hid1 ->].
  assert (Hid2 : node_id n2 = uuid_source w (S (uuid_drawn w))).
  { destruct H2 as [H2|H2]; injection H2 as <- _; reflexivity. }
  assert (Hne : node_eq n1 n2 = false).
  { destruct (node_eq n1 n2) eqn:E; [|reflexivity].
    apply node_eq_key in E. injection E as _ Hid _. congruence. }
  split; [exact Hne|].
  unfold add_node at 2. simpl.
  unfold add_node, dict_mem. simpl. rewrite Hne. reflexivity.
Qed.

Lemma separate_constructions_differ_witness :
  node_eq (estimator_node "scale" 0%N) (estimator_node "scale" 1%N) = false /\
  keys (pre_graph (add_node (estimator_node "scale" 1%N)
                     (add_node (estimator_node "scale" 0%N) Pipeline_init)))
    = [estimator_node "scale" 0%N; estimator_node "scale" 1%N].
Proof.
  apply (separate_constructions_differ "scale" "scale" scaler scaler
           counting_world
           {| uuid_source := N.of_nat; uuid_drawn := 1 |}
           {| uuid_source := N.of_nat; uuid_drawn := 2 |}).
  - left. reflexivity.
  - left. reflexivity.
  - discriminate.
Defined.

(** ** Building the graph *)

Lemma adjacent_eq g k k' :
  node_eq k k' = true -> adjacent g k = adjacent g k'.
Proof. intros H. unfold adjacent. now rewrite (dict_get_eq _ _ g H). Qed.

Lemma adjacent_absent g k : dict_mem k g = false -> adjacent g k = [].
Proof.
  unfold adjacent, dict_mem. destruct (dict_get k g); [discriminate | reflexivity].
Qed.

Lemma adjacent_get g k : dict_mem k g = true -> dict_get k g = Some (adjacent g k).
Proof.
  unfold adjacent, dict_mem. destruct (dict_get k g); [reflexivity | discriminate].
Qed.

Lemma adjacent_set g n l k :
  adjacent (dict_set n l g) k = if node_eq n k then l else adjacent g k.
Proof.
  unfold adjacent. rewrite dict_get_set. destruct (node_eq n k); reflexivity.
Qed.

(** [add_node] changes no adjacency list: a new node gets two empty ones. *)
Lemma add_node_adjacent n p :
  consistent p ->
  forall k,
    adjacent (pre_graph (add_node n p)) k = adjacent (pre_graph p) k /\
    adjacent (post_graph (add_node n p)) k = adjacent (post_graph p) k.
Proof.
  intros Hp k. unfold add_node.
  destruct (dict_mem n (pre_graph p)) eqn:E; simpl; [auto|].
  assert (E' : dict_mem n (post_graph p) = false)
    by (rewrite <- (dict_mem_keys n _ _ (same_keys p Hp)); exact E).
  rewrite !adjacent_set. destruct (node_eq n k) eqn:Ek; [|auto].
  rewrite <- (adjacent_eq (pre_graph p) _ _ Ek).
  rewrite <- (adjacent_eq (post_graph p) _ _ Ek).
  now rewrite !adjacent_absent.
Qed.

Lemma add_edge_effect a b p :
  consistent p ->
  exists p',
    add_edge a b p = Ok p' /\
    (forall k, adjacent (pre_graph p') k =
               if node_eq b k then adjacent (pre_graph p) k ++ [a]
               else adjacent (pre_graph p) k) /\
    (forall k, adjacent (post_graph p') k =
               if node_eq a k then adjacent (post_graph p) k ++ [b]
               else adjacent (post_graph p) k) /\
    (forall k, dict_mem k (pre_graph p') =
               node_eq a k || node_eq b k || dict_mem k (pre_graph p)) /\
    node_levels p' = None /\ level_nodes p' = None.
Proof.
  intros Hp.
  pose proof (consistent_add_node a p Hp) as Hp1.
  pose proof (consistent_add_node b _ Hp1) as Hp2.
  assert (Hb : dict_mem b (pre_graph (add_node b (add_node a p))) = true)
    by (rewrite add_node_mem, node_eq_refl; reflexivity).
  assert (Ha : dict_mem a (post_graph (add_node b (add_node a p))) = true).
  { rewrite <- (dict_mem_keys a _ _ (same_keys _ Hp2)).
    rewrite !add_node_mem, node_eq_refl. apply orb_true_r. }
  assert (Hadj : forall k,
            adjacent (pre_graph (add_node b (add_node a p))) k
              = adjacent (pre_graph p) k /\
            adjacent (post_graph (add_node b (add_node a p))) k
              = adjacent (post_graph p) k).
  { intros k. destruct (add_node_adjacent b _ Hp1 k) as [-> ->].
    apply add_node_adjacent. exact Hp. }
  unfold add_edge, dict_append.
  rewrite (adjacent_get _ _ Hb), (adjacent_get _ _ Ha). cbn [bind].
  eexists. split; [reflexivity|]. simpl. repeat split.
  - intros k. rewrite adjacent_set.
    destruct (Hadj k) as [-> _]. destruct (Hadj b) as [-> _].
    destruct (node_eq b k) eqn:E; [|reflexivity].
    now rewrite (adjacent_eq _ _ _ E).
  - intros k. rewrite adjacent_set.
    destruct (Hadj k) as [_ ->]. destruct (Hadj a) as [_ ->].
    destruct (node_eq a k) eqn:E; [|reflexivity].
    now rewrite (adjacent_eq _ _ _ E).
  - intros k. rewrite dict_mem_set, !add_node_mem.
    destruct (node_eq a k), (node_eq b k), (dict_mem k (pre_graph p));
      reflexivity.
  - apply add_node_caches.
  - apply add_node_caches.
Qed.

(** X6. On a pipeline built through the API [add_edge] never raises.  It
    appends [from] to the predecessor list of [to] and [to] to the
    successor list of [from], leaves every other adjacency list as it
    was, makes both endpoints keys, keeps every earlier key and leaves
    both level caches absent. *)
Theorem add_edge_appends (a b : Node) (p : Pipeline) :
  reachable p ->
  exists p',
    add_edge a b p = Ok p' /\
    get_preimage p' b = Ok (adjacent (pre_graph p) b ++ [a]) /\
    get_postimage p' a = Ok (adjacent (post_graph p) a ++ [b]) /\
    (forall k, node_eq b k = false ->
       adjacent (pre_graph p') k = adjacent (pre_graph p) k) /\
    (forall k, node_eq a k = false ->
       adjacent (post_graph p') k = adjacent (post_graph p) k) /\
    (forall k, dict_mem k (pre_graph p') =
               node_eq a k || node_eq b k || dict_mem k (pre_graph p)) /\
    node_levels p' = None /\ level_nodes p' = None.
Proof.
  intros Hreach.
  pose proof (reachable_consistent p Hreach) as Hp.
  destruct (add_edge_effect a b p Hp)
    as (p' & Hrun & Hpre & Hpost & Hmem & Hl & Hb).
  pose proof (reachable_consistent p' (reachable_add_edge a b p p' Hreach Hrun))
    as Hp'.
  exists p'. repeat split; try assumption.
  - unfold get_preimage. rewrite adjacent_get.
    + now rewrite Hpre, node_eq_refl.
    + rewrite Hmem, node_eq_refl, orb_true_r. reflexivity.
  - unfold get_postimage. rewrite adjacent_get.
    + now rewrite Hpost, node_eq_refl.
    + rewrite <- (dict_mem_keys a _ _ (same_keys p' Hp')).
      rewrite Hmem, node_eq_refl. reflexivity.
  - intros k E. now rewrite Hpre, E.
  - intros k E. now rewrite Hpost, E.
Qed.

Lemma add_edge_appends_witness :
  reachable diamond /\
  exists p',
    add_edge node_a node_d diamond = Ok p' /\
    get_preimage p' node_d = Ok (adjacent (pre_graph diamond) node_d ++ [node_a]) /\
    get_postimage p' node_a = Ok (adjacent (post_graph diamond) node_a ++ [node_d]) /\
    (forall k, node_eq node_d k = false ->
       adjacent (pre_graph p') k = adjacent (pre_graph diamond) k) /\
    (forall k, node_eq node_a k = false ->
       adjacent (post_graph p') k = adjacent (post_graph diamond) k) /\
    (forall k, dict_mem k (pre_graph p') =
               node_eq node_a k || node_eq node_d k
               || dict_mem k (pre_graph diamond)) /\
    node_levels p' = None /\ level_nodes p' = None.
Proof.
  split; [exact diamond_reachable|].
  exact (add_edge_appends node_a node_d diamond diamond_reachable).
Defined.

Lemma count_node_app q l a :
  count_node q (l ++ [a]) = count_node q l + (if node_eq q a then 1 else 0).
Proof.
  unfold count_node. rewrite filter_app, length_app. simpl.
  destruct (node_eq q a); reflexivity.
Qed.

Lemma get_nodes_by_level_frame fuel p b p' :
  get_nodes_by_level fuel p = Ok (b, p') ->
  pre_graph p' = pre_graph p /\ post_graph p' = post_graph p.
Proof.
  intros H. destruct (get_nodes_by_level_inv _ _ _ _ H)
    as [(_ & _ & ->) | (_ & d & p1 & Hd & _ & ->)]; [auto|].
  destruct (compute_node_levels_frame _ _ _ _ Hd) as (Hpre & Hpost & _).
  simpl. auto.
Qed.

Lemma compute_max_level_frame fuel p m p' :
  compute_max_level fuel p = Ok (m, p') ->
  pre_graph p' = pre_graph p /\ post_graph p' = post_graph p.
Proof.
  intros H. destruct (compute_max_level_inv _ _ _ _ H) as (d & Hd & _).
  destruct (compute_node_levels_frame _ _ _ _ Hd) as (Hpre & Hpost & _). auto.
Qed.

(** X7. The level queries never touch the graph: whatever
    [compute_node_levels], [compute_max_level] or [get_nodes_by_level]
    return, [pre_graph] and [post_graph] of the pipeline are afterwards
    what they were before. *)
Theorem level_queries_keep_graph (fuel : nat) (p p' : Pipeline) :
  (exists d, compute_node_levels fuel p = Ok (d, p')) \/
  (exists m, compute_max_level fuel p = Ok (m, p')) \/
  (exists b, get_nodes_by_level fuel p = Ok (b, p')) ->
  pre_graph p' = pre_graph p /\ post_graph p' = post_graph p.
Proof.
  intros [(d & H) | [(m & H) | (b & H)]].
  - destruct (compute_node_levels_frame _ _ _ _ H) as (Hpre & Hpost & _). auto.
  - eapply compute_max_level_frame; exact H.
  - eapply get_nodes_by_level_frame; exact H.
Qed.

Lemma level_queries_keep_graph_witness :
  pre_graph single_leveled = pre_graph (add_node node_a Pipeline_init) /\
  post_graph single_leveled = post_graph (add_node node_a Pipeline_init).
Proof.
  apply (level_queries_keep_graph 2 (add_node node_a Pipeline_init) single_leveled).
  right. right. exists [[node_a]]. reflexivity.
Defined.

(** X8. The two adjacency mappings mirror each other, multi-edges
    counted: in every pipeline built through the API, [q] occurs in the
    predecessor list of [n] exactly as often as [n] occurs in the
    successor list of [q]. *)
Theorem pre_post_mirror (p : Pipeline) :
  reachable p ->
  forall q n,
    count_node q (adjacent (pre_graph p) n) =
    count_node n (adjacent (post_graph p) q).
Proof.
  induction 1 as [ | x p Hreach IH | a b p p' Hreach IH H | fuel p d p' _ IH H
                 | fuel p m p' _ IH H | fuel p b p' _ IH H ]; intros q n.
  - reflexivity.
  - destruct (add_node_adjacent x p (reachable_consistent p Hreach) n) as [-> _].
    destruct (add_node_adjacent x p (reachable_consistent p Hreach) q) as [_ ->].
    apply IH.
  - destruct (add_edge_effect a b p (reachable_consistent p Hreach))
      as (p0 & Hrun & Hpre & Hpost & _).
    assert (p0 = p') by congruence. subst p0.
    rewrite Hpre, Hpost. specialize (IH q n).
    destruct (node_eq b n) eqn:Eb, (node_eq a q) eqn:Ea;
      rewrite ?count_node_app, ?(node_eq_sym q a), ?(node_eq_sym n b), ?Ea, ?Eb;
      lia.
  - destruct (compute_node_levels_frame _ _ _ _ H) as (-> & -> & _). apply IH.
  - destruct (compute_max_level_frame _ _ _ _ H) as [-> ->]. apply IH.
  - destruct (get_nodes_by_level_frame _ _ _ _ H) as [-> ->]. apply IH.
Qed.

Lemma pre_post_mirror_witness :
  reachable diamond /\
  forall q n,
    count_node q (adjacent (pre_graph diamond) n) =
    count_node n (adjacent (post_graph diamond) q).
Proof.
  split; [exact diamond_reachable|].
  exact (pre_post_mirror diamond diamond_reachable).
Defined.

(** X9. Adding a node that is no key yet appends it as the last key of
    both mappings with empty predecessor and successor lists, and leaves
    the entry of every other node untouched. *)
Theorem add_node_new (n : Node) (p : Pipeline) :
  reachable p -> dict_mem n (pre_graph p) = false ->
  keys (pre_graph (add_node n p)) = keys (pre_graph p) ++ [n] /\
  keys (post_graph (add_node n p)) = keys (post_graph p) ++ [n] /\
  get_preimage (add_node n p) n = Ok [] /\
  get_postimage (add_node n p) n = Ok [] /\
  (forall k, node_eq n k = false ->
     dict_get k (pre_graph (add_node n p)) = dict_get k (pre_graph p) /\
     dict_get k (post_graph (add_node n p)) = dict_get k (post_graph p)).
Proof.
  intros Hreach Hn.
  pose proof (same_keys p (reachable_consistent p Hreach)) as Hk.
  assert (Hn' : dict_mem n (post_graph p) = false)
    by (rewrite <- (dict_mem_keys n _ _ Hk); exact Hn).
  unfold get_preimage, get_postimage, add_node. rewrite Hn. simpl.
  rewrite !dict_get_set_same, !keys_dict_set_absent by assumption.
  repeat split.
  - rewrite dict_get_set, H. reflexivity.
  - rewrite dict_get_set, H. reflexivity.
Qed.

Lemma add_node_new_witness :
  reachable diamond /\
  dict_mem (estimator_node "e" 5%N) (pre_graph diamond) = false /\
  keys (pre_graph (add_node (estimator_node "e" 5%N) diamond))
    = [node_a; node_b; node_c; node_d; estimator_node "e" 5%N] /\
  get_preimage (add_node (estimator_node "e" 5%N) diamond)
               (estimator_node "e" 5%N) = Ok [].
Proof.
  split; [exact diamond_reachable|].
  split; [reflexivity|].
  destruct (add_node_new (estimator_node "e" 5%N) diamond
              diamond_reachable eq_refl) as (Hkeys & _ & Hpre & _).
  split; [exact Hkeys | exact Hpre].
Defined.

(** X10. [add_node] is idempotent: adding the same node a second time
    changes nothing, whatever the pipeline held before the first time. *)
Theorem add_node_idempotent (n : Node) (p : Pipeline) :
  add_node n (add_node n p) = add_node n p.
Proof.
  unfold add_node at 2 3. destruct (dict_mem n (pre_graph p)) eqn:E; simpl.
  - unfold add_node. simpl. rewrite E. reflexivity.
  - unfold add_node. simpl.
    rewrite dict_mem_set, node_eq_refl. reflexivity.
Qed.

(** X11. A node that was never added is a lookup error everywhere: the
    predecessor, successor and edge queries and [is_terminal] all raise
    [KeyError] for it, and so does [compute_node_level] once it has to
    look the node up. *)
Theorem unknown_node_raises (p : Pipeline) (n : Node) :
  reachable p -> dict_mem n (pre_graph p) = false ->
  get_preimage p n = Raise KeyError /\
  get_postimage p n = Raise KeyError /\
  get_pre_nodes p n = Raise KeyError /\
  get_post_nodes p n = Raise KeyError /\
  get_pre_edges p n = Raise KeyError /\
  get_post_edges p n = Raise KeyError /\
  is_terminal p n = Raise KeyError /\
  (forall fuel memo,
     dict_mem n memo = false ->
     compute_node_level (S fuel) p n memo = Raise KeyError).
Proof.
  intros Hreach Hn.
  pose proof (same_keys p (reachable_consistent p Hreach)) as Hk.
  assert (Hn' : dict_mem n (post_graph p) = false)
    by (rewrite <- (dict_mem_keys n _ _ Hk); exact Hn).
  unfold dict_mem in Hn, Hn'.
  destruct (dict_get n (pre_graph p)) eqn:Epre; [discriminate|].
  destruct (dict_get n (post_graph p)) eqn:Epost; [discriminate|].
  unfold get_pre_nodes, get_post_nodes, is_terminal, get_pre_edges,
    get_post_edges, get_preimage, get_postimage.
  rewrite Epre, Epost. repeat split.
  intros fuel memo Hmemo. rewrite compute_node_level_S.
  unfold dict_mem in Hmemo. destruct (dict_get n memo); [discriminate|].
  unfold get_preimage. rewrite Epre. reflexivity.
Qed.

Lemma unknown_node_raises_witness :
  reachable diamond /\
  dict_mem (estimator_node "e" 5%N) (pre_graph diamond) = false /\
  get_post_edges diamond (estimator_node "e" 5%N) = Raise KeyError /\
  is_terminal diamond (estimator_node "e" 5%N) = Raise KeyError.
Proof.
  split; [exact diamond_reachable|].
  split; [reflexivity|].
  destruct (unknown_node_raises diamond (estimator_node "e" 5%N)
              diamond_reachable eq_refl)
    as (_ & _ & _ & _ & _ & Hpost & Hterm & _).
  split; [exact Hpost | exact Hterm].
Defined.

(** ** Printing *)

Lemma string_app_nil_r (s : string) : (s ++ "")%string = s.
Proof. induction s as [|c s IH]; simpl; [reflexivity | now rewrite IH]. Qed.

Lemma string_app_assoc (a b c : string) :
  ((a ++ b) ++ c)%string = (a ++ (b ++ c))%string.
Proof. induction a as [|x a IH]; simpl; [reflexivity | now rewrite IH]. Qed.

Lemma str_loop_app self l1 :
  forall l2 res,
    str_loop self (l1 ++ l2) res =
    (r <- str_loop self l1 res ;; str_loop self l2 r).
Proof.
  induction l1 as [|k l1 IH]; intros l2 res; simpl; [reflexivity|].
  destruct (dict_get k (pre_graph self)); [apply IH | reflexivity].
Qed.

Lemma str_loop_same self self' nodes :
  (forall k, In k nodes ->
     dict_get k (pre_graph self') = dict_get k (pre_graph self)) ->
  forall res, str_loop self' nodes res = str_loop self nodes res.
Proof.
  induction nodes as [|k nodes IH]; intros Hsame res; simpl; [reflexivity|].
  rewrite (Hsame k (or_introl eq_refl)).
  destruct (dict_get k (pre_graph self)); [|reflexivity].
  apply IH. intros k' Hk'. apply Hsame. now right.
Qed.

Lemma str_loop_total self nodes :
  (forall k, In k nodes -> dict_mem k (pre_graph self) = true) ->
  forall res, exists s, str_loop self nodes res = Ok s.
Proof.
  induction nodes as [|k nodes IH]; intros Hkeys res; simpl; [eauto|].
  pose proof (Hkeys k (or_introl eq_refl)) as Hk. unfold dict_mem in Hk.
  destruct (dict_get k (pre_graph self)); [|discriminate].
  apply IH. intros k' Hk'. apply Hkeys. now right.
Qed.

(** X12. Printing a pipeline never raises, and a node that is added as a
    new key shows as one more line at the end of the text: its name, an
    equals sign, no predecessor, and a carriage return with line feed. *)
Theorem Pipeline_str_add_node (n : Node) (p : Pipeline) :
  dict_mem n (pre_graph p) = false ->
  exists s,
    Pipeline_str p = Ok s /\
    Pipeline_str (add_node n p) = Ok (s ++ node_name n ++ "=" ++ crlf)%string.
Proof.
  intros Hn.
  destruct (str_loop_total p (keys (pre_graph p))) with (res := ""%string)
    as (s & Hs).
  { intros k. apply In_keys_dict_mem. }
  exists s. split; [exact Hs|].
  unfold Pipeline_str, add_node. rewrite Hn. simpl.
  rewrite keys_dict_set_absent by exact Hn.
  rewrite str_loop_app.
  rewrite str_loop_same with (self := p).
  - rewrite Hs. simpl. rewrite dict_get_set_same.
    unfold get_str, Node_str. simpl.
    now rewrite string_app_nil_r, !string_app_assoc.
  - intros k Hk. simpl. rewrite dict_get_set.
    destruct (node_eq n k) eqn:E; [|reflexivity].
    apply In_keys_dict_mem in Hk.
    rewrite <- (dict_mem_eq _ _ (pre_graph p) E) in Hk. congruence.
Qed.

Lemma Pipeline_str_add_node_witness :
  dict_mem (estimator_node "e" 5%N) (pre_graph diamond) = false /\
  exists s,
    Pipeline_str diamond = Ok s /\
    Pipeline_str (add_node (estimator_node "e" 5%N) diamond)
      = Ok (s ++ "e" ++ "=" ++ crlf)%string.
Proof.
  split; [reflexivity|].
  apply (Pipeline_str_add_node (estimator_node "e" 5%N) diamond). reflexivity.
Defined.

(** ** Leveling and cycles *)

Lemma reaches_eq_r g q n n' :
  node_eq n n' = true -> reaches g q n -> reaches g q n'.
Proof.
  intros H R. destruct R as [q n Hp | q m n R Hp].
  - apply reaches_edge. eapply is_pred_eq_r; eassumption.
  - eapply reaches_step; [exact R | eapply is_pred_eq_r; eassumption].
Qed.

Lemma below_cycle_eq g n n' :
  node_eq n n' = true -> below_cycle g n -> below_cycle g n'.
Proof.
  intros H (m & Hc & R). exists m. split; [exact Hc|].
  eapply reaches_eq_r; eassumption.
Qed.

(** A node below a cycle has a listed predecessor below a cycle. *)
Lemma below_cycle_pred g n :
  below_cycle g n ->
  exists ps q, dict_get n g = Some ps /\ In q ps /\ below_cycle g q.
Proof.
  intros (m & Hc & R).
  destruct R as [m n (ps & q & Hps & Hin & Hq) | m m' n R (ps & q & Hps & Hin & Hq)].
  - exists ps, q. repeat split; try assumption.
    exists m. split; [exact Hc|].
    eapply reaches_eq_r; [|exact Hc]. now rewrite node_eq_sym.
  - exists ps, q. repeat split; try assumption.
    exists m. split; [exact Hc|].
    eapply reaches_eq_r; [|exact R]. now rewrite node_eq_sym.
Qed.

Lemma memo_clean_set g n v memo :
  memo_clean g memo -> ~ below_cycle g n -> memo_clean g (dict_set n v memo).
Proof.
  intros Hclean Hn k. rewrite dict_mem_set, orb_true_iff.
  intros [E|Hk]; [|auto].
  intros Hb. apply Hn. eapply below_cycle_eq; [|exact Hb].
  now rewrite node_eq_sym.
Qed.

Lemma preimage_loop_clean g level_of :
  level_call_clean g level_of ->
  forall ps mx memo r memo',
    memo_clean g memo ->
    preimage_loop level_of ps mx memo = Ok (r, memo') ->
    memo_clean g memo' /\ forall q, In q ps -> ~ below_cycle g q.
Proof.
  intros Hcall ps. induction ps as [|p rest IH]; intros mx memo r memo' Hc Hrun;
    simpl in Hrun.
  - injection Hrun as <- <-. split; [exact Hc | intros q []].
  - inv_bind Hrun. destruct r0 as [l m1].
    destruct (Hcall _ _ _ _ Hc Hr) as [Hc1 Hp].
    destruct (IH _ _ _ _ Hc1 Hrun) as [Hc' Hrest].
    split; [exact Hc'|]. intros q [<-|Hq]; auto.
Qed.

(** Whatever the graph, a call that returns memoises no node below a cycle. *)
Lemma compute_node_level_clean fuel self :
  level_call_clean (pre_graph self) (compute_node_level fuel self).
Proof.
  induction fuel as [|fuel IH]; intros n memo l memo' Hc Hrun.
  - discriminate.
  - rewrite compute_node_level_S in Hrun.
    destruct (dict_get n memo) as [l0|] eqn:Hmemo.
    + injection Hrun as <- <-. split; [exact Hc|].
      apply Hc. unfold dict_mem. now rewrite Hmemo.
    + inv_bind Hrun. unfold get_preimage in Hr.
      destruct (dict_get n (pre_graph self)) as [ps|] eqn:Hps; [|discriminate].
      injection Hr as <-.
      assert (Hn : (forall q, In q ps -> ~ below_cycle (pre_graph self) q) ->
                   ~ below_cycle (pre_graph self) n).
      { intros Hps' Hb.
        destruct (below_cycle_pred _ _ Hb) as (ps0 & q & Hps0 & Hin & Hq).
        assert (ps0 = ps) by congruence. subst ps0.
        exact (Hps' q Hin Hq). }
      destruct ps as [|p rest].
      * injection Hrun as <- <-.
        assert (Hn' : ~ below_cycle (pre_graph self) n)
          by (apply Hn; intros q []).
        split; [now apply memo_clean_set | exact Hn'].
      * inv_bind Hrun. destruct r as [mx m1]. injection Hrun as <- <-.
        destruct (preimage_loop_clean _ _ IH _ _ _ _ _ Hc Hr) as [Hc1 Hps'].
        split; [apply memo_clean_set; auto | auto].
Qed.

Lemma levels_loop_clean fuel self nodes :
  forall memo d,
    memo_clean (pre_graph self) memo ->
    levels_loop fuel self nodes memo = Ok d ->
    forall n, In n nodes -> ~ below_cycle (pre_graph self) n.
Proof.
  induction nodes as [|k rest IH]; intros memo d Hc Hrun n Hn; simpl in Hrun.
  - destruct Hn.
  - inv_bind Hrun. destruct r as [l m1].
    destruct (compute_node_level_clean _ _ _ _ _ _ Hc Hr) as [Hc1 Hk].
    destruct Hn as [<-|Hn]; [exact Hk|].
    eapply IH; [|exact Hrun | exact Hn].
    now apply memo_clean_set.
Qed.

(** Levels for every key can only come out of an acyclic graph. *)
Lemma levels_loop_acyclic fuel self d :
  levels_loop fuel self (keys (pre_graph self)) [] = Ok d -> acyclic self.
Proof.
  intros Hrun n m R. destruct (node_eq n m) eqn:E; [exfalso | reflexivity].
  assert (Hc : reaches (pre_graph self) n n).
  { eapply reaches_eq_r; [|exact R]. now rewrite node_eq_sym. }
  assert (Hkey : dict_mem n (pre_graph self) = true).
  { destruct Hc as [q n (ps & _ & Hps & _) | q m' n _ (ps & _ & Hps & _)];
      eapply dict_get_mem; exact Hps. }
  destruct (dict_mem_In _ _ Hkey) as (k0 & Hk0 & Hk).
  refine (levels_loop_clean fuel self _ [] d _ Hrun k0 Hk0 _).
  - intros k Hmem. discriminate.
  - exists n. split; [exact Hc|].
    eapply reaches_eq_r; [|exact Hc]. now rewrite node_eq_sym.
Qed.

Lemma preimage_loop_safe level_of ps :
  (forall q memo e, In q ps -> level_of q memo <> Raise e) ->
  forall mx memo e, preimage_loop level_of ps mx memo <> Raise e.
Proof.
  induction ps as [|p rest IH]; intros Hsafe mx memo e; simpl; [discriminate|].
  destruct (level_of p memo) as [[l m1]|e'|] eqn:E; simpl.
  - apply IH. intros q memo0 e0 Hq. apply Hsafe. now right.
  - exfalso. exact (Hsafe p memo e' (or_introl eq_refl) E).
  - discriminate.
Qed.

(** In a closed graph the level of a key is computed without any error. *)
Lemma compute_node_level_safe fuel self :
  closed (pre_graph self) ->
  level_call_safe (pre_graph self) (compute_node_level fuel self).
Proof.
  intros Hclosed. induction fuel as [|fuel IH]; intros n memo e Hn.
  - discriminate.
  - rewrite compute_node_level_S.
    destruct (dict_get n memo); [discriminate|].
    unfold get_preimage. unfold dict_mem in Hn.
    destruct (dict_get n (pre_graph self)) as [ps|] eqn:Hps; [|discriminate].
    cbn [bind]. destruct ps as [|p rest]; [discriminate|].
    destruct (preimage_loop (compute_node_level fuel self) (p :: rest) 0 memo)
      as [[mx m1]|e'|] eqn:E; cbn [bind]; try discriminate.
    exfalso. refine (preimage_loop_safe _ _ _ _ _ _ E).
    intros q memo0 e0 Hq. apply IH. eapply Hclosed; eassumption.
Qed.

Lemma levels_loop_safe fuel self nodes :
  closed (pre_graph self) ->
  (forall n, In n nodes -> dict_mem n (pre_graph self) = true) ->
  forall memo e, levels_loop fuel self nodes memo <> Raise e.
Proof.
  intros Hclosed. induction nodes as [|k rest IH]; intros Hkeys memo e; simpl.
  - discriminate.
  - destruct (compute_node_level fuel self k memo) as [[l m1]|e'|] eqn:E; simpl.
    + apply IH. intros q Hq. apply Hkeys. now right.
    + exfalso.
      exact (compute_node_level_safe fuel self Hclosed k memo e'
               (Hkeys k (or_introl eq_refl)) E).
    + discriminate.
Qed.

Lemma self_loop_reachable : reachable self_loop.
Proof.
  apply (reachable_add_edge node_a node_a Pipeline_init).
  - apply reachable_init.
  - reflexivity.
Qed.

Lemma self_loop_cyclic : ~ acyclic self_loop.
Proof.
  intros H.
  assert (R : reaches (pre_graph self_loop) node_a node_a).
  { apply reaches_edge. exists [node_a], node_a. repeat split. now left. }
  specialize (H _ _ R). discriminate.
Qed.

(** X13. On a pipeline built through the API, [compute_node_levels]
    returns for some recursion budget exactly when the graph is acyclic. *)
Theorem compute_node_levels_returns_iff_acyclic (p : Pipeline) :
  reachable p ->
  (acyclic p <->
   exists fuel d p', compute_node_levels fuel p = Ok (d, p')).
Proof.
  intros Hreach. pose proof (reachable_consistent p Hreach) as Hp. split.
  - intros Hacyclic.
    destruct (compute_node_levels_acyclic p Hp Hacyclic) as (d & Hd & _).
    exists (S (List.length (pre_graph p))), d.
    eexists. apply Hd. apply le_n.
  - intros (fuel & d & p' & H).
    destruct (consistent_compute_node_levels _ _ _ _ Hp H) as (_ & f & Hf).
    eapply levels_loop_acyclic; exact Hf.
Qed.

Lemma compute_node_levels_returns_iff_acyclic_witness :
  reachable self_loop /\
  (acyclic self_loop <->
   exists fuel d p', compute_node_levels fuel self_loop = Ok (d, p')).
Proof.
  split; [exact self_loop_reachable|].
  exact (compute_node_levels_returns_iff_acyclic self_loop self_loop_reachable).
Defined.

(** X14. On a pipeline whose graph has a cycle the level queries never
    return, however large the recursion budget: [compute_node_levels],
    [compute_max_level] and [get_nodes_by_level] all run out of it. *)
Theorem cyclic_pipeline_never_levels (p : Pipeline) (fuel : nat) :
  reachable p -> ~ acyclic p ->
  compute_node_levels fuel p = OutOfFuel /\
  compute_max_level fuel p = OutOfFuel /\
  get_nodes_by_level fuel p = OutOfFuel.
Proof.
  intros Hreach Hcyc. pose proof (reachable_consistent p Hreach) as Hp.
  assert (Hloop : forall f,
            levels_loop f p (keys (pre_graph p)) [] = OutOfFuel).
  { intros f.
    destruct (levels_loop f p (keys (pre_graph p)) []) as [d|e|] eqn:E.
    - exfalso. apply Hcyc. eapply levels_loop_acyclic; exact E.
    - exfalso. refine (levels_loop_safe f p _ (pre_closed p Hp) _ [] e E).
      intros n. apply In_keys_dict_mem.
    - reflexivity. }
  assert (Hlv : compute_node_levels fuel p = OutOfFuel).
  { unfold compute_node_levels.
    destruct (truthy (node_levels p)) eqn:T.
    - destruct (node_levels p) as [d|] eqn:E; [|discriminate].
      destruct (levels_cached p Hp d E) as (f & Hf).
      rewrite Hloop in Hf. discriminate.
    - rewrite Hloop. reflexivity. }
  repeat split.
  - exact Hlv.
  - unfold compute_max_level. rewrite Hlv. reflexivity.
  - unfold get_nodes_by_level.
    destruct (truthy (level_nodes p)) eqn:T.
    + destruct (level_nodes p) as [b|] eqn:E; [|discriminate].
      destruct (buckets_cached p Hp b E) as (f & d & Hf & _).
      rewrite Hloop in Hf. discriminate.
    + rewrite Hlv. reflexivity.
Qed.

Lemma cyclic_pipeline_never_levels_witness :
  reachable self_loop /\ ~ acyclic self_loop /\
  compute_node_levels 1000 self_loop = OutOfFuel /\
  compute_max_level 1000 self_loop = OutOfFuel /\
  get_nodes_by_level 1000 self_loop = OutOfFuel.
Proof.
  split; [exact self_loop_reachable|].
  split; [exact self_loop_cyclic|].
  exact (cyclic_pipeline_never_levels self_loop 1000
           self_loop_reachable self_loop_cyclic).
Defined.

(** X15. On a pipeline built through the API the level queries never
    raise: no lookup of a predecessor misses its key and no level falls
    outside the list of buckets, cycle or no cycle, whatever the budget. *)
Theorem level_queries_never_raise (p : Pipeline) (fuel : nat) (e : PyExn) :
  reachable p ->
  compute_node_levels fuel p <> Raise e /\
  compute_max_level fuel p <> Raise e /\
  get_nodes_by_level fuel p <> Raise e.
Proof.
  intros Hreach. pose proof (reachable_consistent p Hreach) as Hp.
  assert (Hlv : forall e', compute_node_levels fuel p <> Raise e').
  { intros e'. unfold compute_node_levels.
    destruct (truthy (node_levels p)).
    - destruct (node_levels p); discriminate.
    - destruct (levels_loop fuel p (keys (pre_graph p)) []) as [d|e0|] eqn:E;
        simpl; try discriminate.
      exfalso. refine (levels_loop_safe fuel p _ (pre_closed p Hp) _ [] e0 E).
      intros n. apply In_keys_dict_mem. }
  repeat split.
  - apply Hlv.
  - unfold compute_max_level.
    destruct (compute_node_levels fuel p) as [[d p1]|e0|] eqn:E; simpl;
      try discriminate.
    exfalso. exact (Hlv e0 eq_refl).
  - unfold get_nodes_by_level.
    destruct (truthy (level_nodes p)).
    + destruct (level_nodes p); discriminate.
    + destruct (compute_node_levels fuel p) as [[d p1]|e0|] eqn:E; cbn [bind];
        [| exfalso; exact (Hlv e0 eq_refl) | discriminate].
      unfold compute_max_level.
      rewrite (compute_node_levels_again _ fuel _ _ _ E). cbn [bind].
      fold (max_level_of d).
      destruct (fill_buckets_spec d (repeat [] (max_level_of d + 1)))
        as (b & -> & _).
      * intros k l Hin. rewrite repeat_length.
        pose proof (max_level_of_ge d k l Hin). lia.
      * discriminate.
Qed.

Lemma level_queries_never_raise_witness :
  reachable self_loop /\
  compute_node_levels 3 self_loop <> Raise KeyError /\
  compute_max_level 3 self_loop <> Raise KeyError /\
  get_nodes_by_level 3 self_loop <> Raise KeyError.
Proof.
  split; [exact self_loop_reachable|].
  exact (level_queries_never_raise self_loop 3 KeyError self_loop_reachable).
Defined.

(** ** The levels of an acyclic pipeline, further *)

Lemma returned_Ok {A : Type} (o : outcome (A * Pipeline)) a p :
  o = Ok (a, p) -> returned o = Ok a.
Proof. intros ->. reflexivity. Qed.

(** Levels and buckets of an acyclic pipeline, as the queries return them. *)
Lemma levels_and_buckets p :
  reachable p -> acyclic p ->
  exists d b,
    (forall fuel, S (List.length (pre_graph p)) <= fuel ->
       returned (compute_node_levels fuel p) = Ok d /\
       returned (get_nodes_by_level fuel p) = Ok b) /\
    memo_ok (pre_graph p) d /\
    distinct_keys d /\
    (forall n, dict_mem n d = dict_mem n (pre_graph p)) /\
    List.length b = max_level_of d + 1 /\
    (forall j, nth j b [] = map fst (filter (fun kl => snd kl =? j) d)).
Proof.
  intros Hreach Hacyclic.
  destruct (get_nodes_by_level_acyclic p (reachable_consistent p Hreach) Hacyclic)
    as (d & b & Hrun & Hrest).
  exists d, b. split; [|exact Hrest].
  intros fuel Hfuel. destruct (Hrun fuel Hfuel) as (_ & p1 & p2 & H1 & H2).
  split; eapply returned_Ok; eassumption.
Qed.

Lemma pred_level g d q n ln :
  memo_ok g d -> is_pred g q n -> dict_get n d = Some ln ->
  exists lq, dict_get q d = Some lq /\ lq < ln.
Proof.
  intros Hok (ps & q' & Hps & Hin & Hq) Hn.
  destruct (Hok n ln Hn) as (ps' & lps & Hps' & Hlv & Hrec).
  assert (ps' = ps) by congruence. subst ps'.
  destruct (has_levels_In _ _ _ _ Hlv Hin) as (lq & Hlq & Hinl).
  exists lq. split.
  - rewrite <- (dict_get_eq _ _ d Hq). exact Hlq.
  - pose proof (list_max_ge _ _ Hinl).
    destruct ps; [destruct Hin | simpl in Hrec; lia].
Qed.

Lemma reaches_key g q n : reaches g q n -> dict_mem n g = true.
Proof.
  intros [q0 n0 (ps & _ & Hps & _) | q0 m n0 _ (ps & _ & Hps & _)];
    eapply dict_get_mem; exact Hps.
Qed.

(** X16. In an acyclic pipeline every ancestor of a node, however many
    edges away, has a strictly smaller level than the node: whatever a
    node depends on sits in an earlier bucket. *)
Theorem levels_increase_along_paths (p : Pipeline) :
  reachable p -> acyclic p ->
  exists levels,
    (forall fuel, S (List.length (pre_graph p)) <= fuel ->
       returned (compute_node_levels fuel p) = Ok levels) /\
    forall q n, reaches (pre_graph p) q n ->
      exists lq ln,
        dict_get q levels = Some lq /\ dict_get n levels = Some ln /\ lq < ln.
Proof.
  intros Hreach Hacyclic.
  destruct (levels_and_buckets p Hreach Hacyclic)
    as (d & b & Hrun & Hok & _ & Hmem & _).
  exists d. split; [intros fuel Hfuel; apply (Hrun fuel Hfuel)|].
  assert (Hlevel : forall n, dict_mem n (pre_graph p) = true ->
                             exists ln, dict_get n d = Some ln).
  { intros n Hn. rewrite <- Hmem in Hn. unfold dict_mem in Hn.
    destruct (dict_get n d) as [ln|]; [eauto | discriminate]. }
  assert (Hpath : forall q n, reaches (pre_graph p) q n ->
            forall ln, dict_get n d = Some ln ->
            exists lq, dict_get q d = Some lq /\ lq < ln).
  { intros q n R. induction R as [q n Hp | q m n R IH Hp]; intros ln Hn.
    - eapply pred_level; eassumption.
    - destruct (pred_level _ _ _ _ _ Hok Hp Hn) as (lm & Hm & Hlt).
      destruct (IH lm Hm) as (lq & Hq & Hlt').
      exists lq. split; [exact Hq | lia]. }
  intros q n R.
  destruct (Hlevel n (reaches_key _ _ _ R)) as (ln & Hn).
  destruct (Hpath q n R ln Hn) as (lq & Hq & Hlt).
  exists lq, ln. auto.
Qed.

Lemma levels_increase_along_paths_witness :
  reachable diamond /\ acyclic diamond /\
  exists levels,
    (forall fuel, S (List.length (pre_graph diamond)) <= fuel ->
       returned (compute_node_levels fuel diamond) = Ok levels) /\
    forall q n, reaches (pre_graph diamond) q n ->
      exists lq ln,
        dict_get q levels = Some lq /\ dict_get n levels = Some ln /\ lq < ln.
Proof.
  split; [exact diamond_reachable|].
  split; [exact diamond_acyclic|].
  exact (levels_increase_along_paths diamond diamond_reachable diamond_acyclic).
Defined.

(** X17. In an acyclic pipeline the nodes of level 0 are exactly the
    nodes without predecessors, so the first bucket holds the sources of
    the graph and nothing else. *)
Theorem level_zero_iff_source (p : Pipeline) :
  reachable p -> acyclic p ->
  exists levels buckets,
    (forall fuel, S (List.length (pre_graph p)) <= fuel ->
       returned (compute_node_levels fuel p) = Ok levels /\
       returned (get_nodes_by_level fuel p) = Ok buckets) /\
    forall n ps, dict_get n (pre_graph p) = Some ps ->
      exists l,
        dict_get n levels = Some l /\
        (l = 0 <-> ps = []) /\
        count_node n (nth 0 buckets []) =
          match ps with [] => 1 | _ :: _ => 0 end.
Proof.
  intros Hreach Hacyclic.
  destruct (levels_and_buckets p Hreach Hacyclic)
    as (d & b & Hrun & Hok & Hdist & Hmem & _ & Hnth).
  exists d, b. split; [exact Hrun|].
  intros n ps Hps.
  assert (Hn : dict_mem n d = true)
    by (rewrite Hmem; eapply dict_get_mem; exact Hps).
  unfold dict_mem in Hn. destruct (dict_get n d) as [l|] eqn:Hl; [|discriminate].
  destruct (Hok n l Hl) as (ps' & lps & Hps' & _ & Hrec).
  assert (ps' = ps) by congruence. subst ps'.
  exists l. split; [reflexivity|].
  rewrite Hnth, (count_node_present n d l Hdist Hl 0).
  destruct ps; simpl in Hrec; subst l; simpl; split; try reflexivity;
    split; congruence.
Qed.

Lemma level_zero_iff_source_witness :
  reachable diamond /\ acyclic diamond /\
  exists levels buckets,
    (forall fuel, S (List.length (pre_graph diamond)) <= fuel ->
       returned (compute_node_levels fuel diamond) = Ok levels /\
       returned (get_nodes_by_level fuel diamond) = Ok buckets) /\
    forall n ps, dict_get n (pre_graph diamond) = Some ps ->
      exists l,
        dict_get n levels = Some l /\
        (l = 0 <-> ps = []) /\
        count_node n (nth 0 buckets []) =
          match ps with [] => 1 | _ :: _ => 0 end.
Proof.
  split; [exact diamond_reachable|].
  split; [exact diamond_acyclic|].
  exact (level_zero_iff_source diamond diamond_reachable diamond_acyclic).
Defined.

Lemma In_dict_get {V : Type} (d : dict V) k v :
  distinct_keys d -> In (k, v) d -> dict_get k d = Some v.
Proof.
  induction d as [|[k0 v0] d IH]; simpl; [tauto|].
  intros [Hk0 Hd] [[= -> ->]|Hin].
  - now rewrite node_eq_refl.
  - destruct (node_eq k0 k) eqn:E; [|auto].
    rewrite (dict_get_eq _ _ d E) in Hk0.
    pose proof (In_dict_mem _ _ _ Hin) as Hm.
    unfold dict_mem in Hm. rewrite Hk0 in Hm. discriminate.
Qed.

Lemma distinct_keys_NoDup {V : Type} (d : dict V) :
  distinct_keys d -> NoDup (map node_key (keys d)).
Proof.
  induction d as [|[k v] d IH]; simpl; [constructor|].
  intros [Hk Hd]. constructor; [|auto].
  intros Hin. apply in_map_iff in Hin. destruct Hin as (k' & Hkey & Hk').
  apply node_eq_key in Hkey.
  apply In_keys_dict_mem in Hk'.
  rewrite (dict_mem_eq _ _ d Hkey) in Hk'.
  unfold dict_mem in Hk'. rewrite Hk in Hk'. discriminate.
Qed.

(** A level above 0 is reached from the level just below it. *)
Lemma level_below_occupied g d k l :
  memo_ok g d -> dict_get k d = Some (S l) ->
  exists k', dict_get k' d = Some l.
Proof.
  intros Hok Hk. destruct (Hok k (S l) Hk) as (ps & lps & _ & Hlv & Hrec).
  destruct ps as [|q ps]; [discriminate|]. simpl in Hrec.
  injection Hrec as ->.
  assert (Hlps : lps <> []) by (intros ->; inversion Hlv).
  destruct (has_levels_In_level _ _ _ _ Hlv (list_max_attained lps Hlps))
    as (q' & _ & Hq').
  exists q'. exact Hq'.
Qed.

Lemma levels_occupied_down g d :
  memo_ok g d ->
  forall l, (exists k, dict_get k d = Some l) ->
  forall i, i <= l -> exists k, dict_get k d = Some i.
Proof.
  intros Hok l. induction l as [|l IH]; intros (k & Hk) i Hi.
  - replace i with 0 by lia. eauto.
  - destruct (Nat.eq_dec i (S l)) as [->|Hne]; [eauto|].
    apply IH; [|lia]. eapply level_below_occupied; eassumption.
Qed.

Lemma fold_max_attained (d : dict nat) :
  forall a,
    fold_left (fun mx '(_, l) => Nat.max l mx) d a = a \/
    exists k, In (k, fold_left (fun mx '(_, l) => Nat.max l mx) d a) d.
Proof.
  induction d as [|[k0 l0] d IH]; intros a; simpl; [auto|].
  destruct (IH (Nat.max l0 a)) as [H | (k & H)].
  - rewrite H. destruct (Nat.max_spec l0 a) as [[_ ->] | [_ ->]]; eauto.
  - right. exists k. now right.
Qed.

Lemma max_level_attained (d : dict nat) :
  d <> [] -> exists k, In (k, max_level_of d) d.
Proof.
  intros Hd. destruct (fold_max_attained d 0) as [H | H]; [|exact H].
  destruct d as [|[k l] d]; [congruence|].
  exists k. left. f_equal.
  pose proof (max_level_of_ge ((k, l) :: d) k l (or_introl eq_refl)) as Hle.
  unfold max_level_of in *. lia.
Qed.

(** X18. In an acyclic pipeline with at least one node, no bucket that
    [get_nodes_by_level] returns is empty: every level from 0 up to the
    highest is taken by some node.  Hence there are never more buckets
    than nodes. *)
Theorem buckets_nonempty_and_bounded (p : Pipeline) :
  reachable p -> acyclic p -> pre_graph p <> [] ->
  exists buckets,
    (forall fuel, S (List.length (pre_graph p)) <= fuel ->
       returned (get_nodes_by_level fuel p) = Ok buckets) /\
    (forall i, i < List.length buckets -> nth i buckets [] <> []) /\
    List.length buckets <= List.length (pre_graph p).
Proof.
  intros Hreach Hacyclic Hne.
  destruct (levels_and_buckets p Hreach Hacyclic)
    as (d & b & Hrun & Hok & Hdist & Hmem & Hlen & Hnth).
  exists b. split; [intros fuel Hfuel; apply (Hrun fuel Hfuel)|].
  assert (Hd : d <> []).
  { destruct (pre_graph p) as [|[k ps] g] eqn:Hg; [congruence|].
    specialize (Hmem k). rewrite (In_keys_dict_mem k ((k, ps) :: g)) in Hmem
      by (left; reflexivity).
    intros ->. discriminate. }
  assert (Hocc : forall i, i < List.length b -> exists k, In (k, i) d).
  { intros i Hi. destruct (max_level_attained d Hd) as (k & Hk).
    destruct (levels_occupied_down _ d Hok (max_level_of d)) with (i := i)
      as (k' & Hk').
    - exists k. now apply In_dict_get.
    - lia.
    - destruct (dict_get_In _ _ _ Hk') as (k0 & Hin & _). eauto. }
  split.
  - intros i Hi Hnil. destruct (Hocc i Hi) as (k & Hk).
    assert (Hin : In k (nth i b [])).
    { rewrite Hnth. apply in_map_iff. exists (k, i). split; [reflexivity|].
      apply filter_In. split; [exact Hk | apply Nat.eqb_refl]. }
    rewrite Hnil in Hin. destruct Hin.
  - rewrite <- (length_seq (List.length b) 0).
    transitivity (List.length (map snd d)).
    + apply NoDup_incl_length; [apply seq_NoDup|].
      intros i Hi. apply in_seq in Hi.
      destruct (Hocc i) as (k & Hk); [lia|].
      apply in_map_iff. exists (k, i). auto.
    + rewrite length_map, <- (length_map fst d).
      apply stack_bound.
      * now apply distinct_keys_NoDup.
      * intros s Hs. rewrite <- Hmem. now apply In_keys_dict_mem.
Qed.

Lemma buckets_nonempty_and_bounded_witness :
  reachable diamond /\ acyclic diamond /\ pre_graph diamond <> [] /\
  exists buckets,
    (forall fuel, S (List.length (pre_graph diamond)) <= fuel ->
       returned (get_nodes_by_level fuel diamond) = Ok buckets) /\
    (forall i, i < List.length buckets -> nth i buckets [] <> []) /\
    List.length buckets <= List.length (pre_graph diamond).
Proof.
  split; [exact diamond_reachable|].
  split; [exact diamond_acyclic|].
  split; [discriminate|].
  apply (buckets_nonempty_and_bounded diamond diamond_reachable diamond_acyclic).
  discriminate.
Defined.

(** X19. The levels are determined by the graph alone: in an acyclic
    pipeline any assignment of numbers to nodes that gives 0 to nodes
    without predecessors and 1 + the largest number among the
    predecessors to every other node agrees with the level mapping that
    [compute_node_levels] returns, whatever the order of insertion. *)
Theorem levels_unique (p : Pipeline) (f : Node -> nat) :
  reachable p -> acyclic p ->
  (forall n ps, dict_get n (pre_graph p) = Some ps ->
     f n = match ps with [] => 0 | _ :: _ => S (list_max (map f ps)) end) ->
  exists levels,
    (forall fuel, S (List.length (pre_graph p)) <= fuel ->
       returned (compute_node_levels fuel p) = Ok levels) /\
    forall n l, dict_get n levels = Some l -> f n = l.
Proof.
  intros Hreach Hacyclic Hf.
  destruct (levels_and_buckets p Hreach Hacyclic)
    as (d & b & Hrun & Hok & _).
  exists d. split; [intros fuel Hfuel; apply (Hrun fuel Hfuel)|].
  assert (H : forall l n l', l' <= l -> dict_get n d = Some l' -> f n = l').
  { induction l as [|l IH]; intros n l' Hle Hn;
      destruct (Hok n l' Hn) as (ps & lps & Hps & Hlv & Hrec);
      rewrite (Hf n ps Hps); destruct ps as [|q ps]; try (symmetry; exact Hrec).
    - simpl in Hrec. lia.
    - simpl in Hrec. rewrite Hrec. f_equal. f_equal.
      assert (Hbound : forall lq, In lq lps -> lq <= l).
      { intros lq Hin. pose proof (list_max_ge _ _ Hin). lia. }
      clear Hps Hrec. induction Hlv as [|q0 l0 ps0 lps0 H0 _ IHlv];
        [reflexivity|].
      simpl. rewrite (IH q0 l0); [|apply Hbound; now left | exact H0].
      f_equal. apply IHlv. intros lq Hin. apply Hbound. now right. }
  intros n l Hn. exact (H l n l (le_n _) Hn).
Qed.

Lemma levels_unique_witness :
  reachable diamond /\ acyclic diamond /\
  exists levels,
    (forall fuel, S (List.length (pre_graph diamond)) <= fuel ->
       returned (compute_node_levels fuel diamond) = Ok levels) /\
    forall n l, dict_get n levels = Some l ->
      (if String.eqb (node_name n) "a" then 0
       else if String.eqb (node_name n) "d" then 2 else 1) = l.
Proof.
  split; [exact diamond_reachable|].
  split; [exact diamond_acyclic|].
  apply (levels_unique diamond
           (fun n => if String.eqb (node_name n) "a" then 0
                     else if String.eqb (node_name n) "d" then 2 else 1)
           diamond_reachable diamond_acyclic).
  intros n ps H. simpl in H.
  repeat match type of H with
  | (if node_eq ?k n then _ else _) = _ =>
      let E := fresh "E" in
      destruct (node_eq k n) eqn:E;
      [ apply node_eq_key in E; injection E as _ _ E; rewrite <- E;
        injection H as <-; reflexivity | ]
  end.
  discriminate.
Defined.

(** ** The caches *)

Lemma acyclic_same_graph p p' :
  pre_graph p' = pre_graph p -> acyclic p -> acyclic p'.
Proof. unfold acyclic. intros ->. auto. Qed.

(** X20. A cache is never stale.  If a pipeline built through the API
    holds a level mapping or a list of buckets, then dropping the caches
    (which adding an already present node does) and computing afresh
    gives that very mapping and those very buckets. *)
Theorem caches_never_stale (p : Pipeline) (n : Node) :
  reachable p -> dict_mem n (pre_graph p) = true ->
  (forall d, node_levels p = Some d ->
     forall fuel, S (List.length (pre_graph p)) <= fuel ->
       returned (compute_node_levels fuel (add_node n p)) = Ok d) /\
  (forall b, level_nodes p = Some b ->
     forall fuel, S (List.length (pre_graph p)) <= fuel ->
       returned (get_nodes_by_level fuel (add_node n p)) = Ok b).
Proof.
  intros Hreach Hn.
  pose proof (reachable_consistent p Hreach) as Hp.
  pose proof (reachable_add_node n p Hreach) as Hreach0.
  pose proof (reachable_consistent _ Hreach0) as Hp0.
  assert (Hp0eq : add_node n p =
                  {| pre_graph := pre_graph p; post_graph := post_graph p;
                     node_levels := None; level_nodes := None |})
    by (unfold add_node; rewrite Hn; reflexivity).
  assert (Hg : pre_graph (add_node n p) = pre_graph p)
    by (rewrite Hp0eq; reflexivity).
  assert (Hfresh : forall f d,
            levels_loop f p (keys (pre_graph p)) [] = Ok d ->
            forall fuel, S (List.length (pre_graph p)) <= fuel ->
              exists b p1 p2,
                compute_node_levels fuel (add_node n p) = Ok (d, p1) /\
                get_nodes_by_level fuel (add_node n p) = Ok (b, p2) /\
                fill_buckets d (repeat [] (max_level_of d + 1)) = Ok b).
  { intros f d Hf fuel Hfuel.
    assert (Hacyclic : acyclic (add_node n p)).
    { apply (acyclic_same_graph p); [exact Hg|].
      eapply levels_loop_acyclic; exact Hf. }
    destruct (get_nodes_by_level_acyclic _ Hp0 Hacyclic) as (d0 & b0 & Hrun & _).
    rewrite Hg in Hrun. destruct (Hrun fuel Hfuel) as (Hloop & p1 & p2 & H1 & H2).
    rewrite (levels_loop_graph (add_node n p) p Hg) in Hloop.
    pose proof (levels_loop_deterministic _ _ _ _ _ _ _ Hf Hloop) as <-.
    exists b0, p1, p2. repeat split; try assumption.
    destruct (get_nodes_by_level_inv _ _ _ _ H2)
      as [(T & _) | (_ & d1 & p1' & H1' & Hfill & _)].
    - rewrite Hp0eq in T. discriminate.
    - rewrite H1 in H1'. injection H1' as <- _. exact Hfill. }
  split.
  - intros d Hd fuel Hfuel.
    destruct (levels_cached p Hp d Hd) as (f & Hf).
    destruct (Hfresh f d Hf fuel Hfuel) as (b & p1 & p2 & H1 & _).
    eapply returned_Ok; exact H1.
  - intros b Hb fuel Hfuel.
    destruct (buckets_cached p Hp b Hb) as (f & d & Hf & Hfill).
    destruct (Hfresh f d Hf fuel Hfuel) as (b' & p1 & p2 & _ & H2 & Hfill').
    assert (b' = b) by congruence. subst b'.
    eapply returned_Ok; exact H2.
Qed.

Lemma caches_never_stale_witness :
  reachable single_leveled /\
  dict_mem node_a (pre_graph single_leveled) = true /\
  node_levels single_leveled = Some [(node_a, 0)] /\
  level_nodes single_leveled = Some [[node_a]] /\
  returned (compute_node_levels 2 (add_node node_a single_leveled))
    = Ok [(node_a, 0)] /\
  returned (get_nodes_by_level 2 (add_node node_a single_leveled))
    = Ok [[node_a]].
Proof.
  split; [exact single_leveled_reachable|].
  split; [reflexivity|].
  split; [reflexivity|].
  split; [reflexivity|].
  destruct (caches_never_stale single_leveled node_a
              single_leveled_reachable eq_refl) as [Hlevels Hbuckets].
  split.
  - apply (Hlevels [(node_a, 0)] eq_refl 2). apply le_n.
  - apply (Hbuckets [[node_a]] eq_refl 2). apply le_n.
Defined.

(** X21. On an acyclic pipeline [get_nodes_by_level] is idempotent: the
    first call returns the buckets and leaves them cached, and every
    later call with no [add_node] or [add_edge] in between returns the
    same buckets and the same pipeline, whatever its recursion budget. *)
Theorem get_nodes_by_level_idempotent (p : Pipeline) :
  reachable p -> acyclic p ->
  exists buckets p2,
    (forall fuel, S (List.length (pre_graph p)) <= fuel ->
       get_nodes_by_level fuel p = Ok (buckets, p2)) /\
    (forall fuel, get_nodes_by_level fuel p2 = Ok (buckets, p2)).
Proof.
  intros Hreach Hacyclic.
  pose proof (reachable_consistent p Hreach) as Hp.
  destruct (get_nodes_by_level_acyclic p Hp Hacyclic)
    as (d & b & Hrun & _ & _ & _ & Hlen & _).
  destruct (compute_node_levels_acyclic p Hp Hacyclic) as (d' & Hd' & _).
  assert (Hb : truthy (Some b) = true).
  { destruct b; [simpl in Hlen; lia | reflexivity]. }
  exists b.
  exists (if truthy (level_nodes p) then p
          else set_level_nodes
                 (if truthy (node_levels p) then p else set_node_levels p d') b).
  assert (Hfirst : forall fuel, S (List.length (pre_graph p)) <= fuel ->
            get_nodes_by_level fuel p =
            Ok (b, if truthy (level_nodes p) then p
                   else set_level_nodes
                          (if truthy (node_levels p) then p
                           else set_node_levels p d') b)).
  { intros fuel Hfuel.
    destruct (Hrun fuel Hfuel) as (_ & p1 & p2 & H1 & H2).
    destruct (Hd' fuel Hfuel) as (_ & H1').
    rewrite H1 in H1'. injection H1' as _ Hp1.
    rewrite H2. f_equal. f_equal.
    destruct (get_nodes_by_level_inv _ _ _ _ H2)
      as [(T & _ & ->) | (T & d1 & p1' & H1'' & _ & ->)]; rewrite T.
    - reflexivity.
    - rewrite H1 in H1''. injection H1'' as _ <-. now rewrite Hp1. }
  split; [exact Hfirst|].
  intros fuel. unfold get_nodes_by_level at 1.
  destruct (truthy (level_nodes p)) eqn:T.
  - rewrite T.
    specialize (Hfirst _ (le_n _)). unfold get_nodes_by_level in Hfirst.
    rewrite T in Hfirst. exact Hfirst.
  - destruct b as [|b0 bs]; [discriminate Hb | reflexivity].
Qed.

Lemma get_nodes_by_level_idempotent_witness :
  reachable diamond /\ acyclic diamond /\
  exists buckets p2,
    (forall fuel, S (List.length (pre_graph diamond)) <= fuel ->
       get_nodes_by_level fuel diamond = Ok (buckets, p2)) /\
    (forall fuel, get_nodes_by_level fuel p2 = Ok (buckets, p2)).
Proof.
  split; [exact diamond_reachable|].
  split; [exact diamond_acyclic|].
  exact (get_nodes_by_level_idempotent diamond diamond_reachable diamond_acyclic).
Defined.

(** ** Cloning *)

(** X22. [clone] raises only when [base.clone] does: cloning an
    [AndNode] never raises, and cloning an [EstimatorNode] raises exactly
    the exception that [base.clone] raises on its estimator.  A clone
    that returns has drawn exactly one uuid. *)
Theorem clone_raises_only_from_base_clone
    (base_clone : PyObject -> outcome PyObject) (n : Node) (w : World) :
  (forall e,
     clone base_clone n w = Raise e <->
     node_class n = EstimatorNodeClass /\
     base_clone (node_capability n) = Raise e) /\
  (forall n' w',
     clone base_clone n w = Ok (n', w') ->
     uuid_drawn w' = S (uuid_drawn w) /\ uuid_source w' = uuid_source w).
Proof.
  unfold clone. destruct (node_class n) eqn:Hc.
  - destruct (base_clone (node_capability n)) as [c|e0|]; simpl; split.
    + intros e. split; [discriminate | intros [_ H]; discriminate].
    + intros n' w' [= <- <-]. auto.
    + intros e. split; [intros [= <-]; auto | intros [_ [= <-]]; reflexivity].
    + discriminate.
    + intros e. split; [discriminate | intros [_ H]; discriminate].
    + discriminate.
  - simpl. split.
    + intros e. split; [discriminate | intros [H _]; discriminate].
    + intros n' w' [= <- <-]. auto.
Qed.
